(** * Bulk mailer (streamlit_app.py): a shallow embedding and its properties

    The script personalises one e-mail per row of a recipient table and sends
    them in order, keeping its bookkeeping in Streamlit's session state.

    Conventions of the embedding.
    - A Python [str] is the list of its code points ([list N]); [py] turns an
      ASCII literal into one.
    - A table row ([df.iloc[idx].to_dict()]) is a finite map from column names
      to cell texts.  Every cell is taken to be text.
    - Code that can raise returns a [result].
    - Functions of Python's libraries whose behaviour is not fixed by the
      script (address parsing, the Unicode digit table, the largest index
      of the build, replacement fields with conversions, format specs,
      attributes or indices) are fields of the class [PyLib]; every
      statement holds for every instance.
    - What the dispatch loop does to the outside world (transport calls,
      sleeps, progress bar, notices) is recorded in a trace of events. *)

From Stdlib Require Import ZArith NArith Ascii String Lia.
From stdpp Require Import gmap list.

Abbreviation pystr := (list N).
Abbreviation row := (gmap (list N) (list N)).

(** ** Python strings *)

Module Str.

Local Open Scope N_scope.

Definition py (s : string) : pystr := N_of_ascii <$> list_ascii_of_string s.

(** Code points the script names. *)
Definition LF : N := 10.
Definition CR : N := 13.
Definition SPACE : N := 32.
Definition DQUOTE : N := 34.
Definition AMP : N := 38.
Definition SQUOTE : N := 39.
Definition LT : N := 60.
Definition GT : N := 62.
Definition AT : N := 64.
Definition NBSP : N := 160.      (* "\xa0" *)
Definition ZWSP : N := 8203.     (* "\u200b" *)

(** [str.isspace] of one code point: the table behind [strip()] and
    [split()] (CPython's [_Py_ascii_whitespace] and [_PyUnicode_IsWhitespace]). *)
Definition isspace (c : N) : bool :=
  ((9 <=? c) && (c <=? 13)) || ((28 <=? c) && (c <=? 32))
  || (c =? 133) || (c =? 160) || (c =? 5760)
  || ((8192 <=? c) && (c <=? 8202))
  || (c =? 8232) || (c =? 8233) || (c =? 8239) || (c =? 8287) || (c =? 12288).

(** [sub in s] for a one-character [sub]. *)
Definition contains_char (c : N) (s : pystr) : bool := existsb (N.eqb c) s.

(** [s.startswith(p)]. *)
Fixpoint startswith (p s : pystr) : bool :=
  match p, s with
  | [], _ => true
  | _ :: _, [] => false
  | a :: p', b :: s' => (a =? b) && startswith p' s'
  end.

(** [s.replace(old, new)]: the occurrences of [old] are found from the left
    and do not overlap.  [skip] counts the characters of a match still to be
    passed over. *)
Fixpoint replace_from (old new : pystr) (skip : nat) (s : pystr) : pystr :=
  match s with
  | [] => []
  | c :: s' =>
      match skip with
      | S k => replace_from old new k s'
      | O =>
          if startswith old s
          then new ++ replace_from old new (Nat.pred (length old)) s'
          else c :: replace_from old new 0 s'
      end
  end.

Definition replace (old new s : pystr) : pystr :=
  match old with
  | [] => new ++ (s ≫= fun c => c :: new)
  | _ :: _ => replace_from old new 0 s
  end.

(** [s.split(sep)] for a non-empty [sep] (the script's only separator is
    the two-character blank line). *)
Definition cons_hd (c : N) (l : list pystr) : list pystr :=
  match l with
  | [] => [[c]]
  | h :: t => (c :: h) :: t
  end.

Fixpoint split_from (sep : pystr) (skip : nat) (s : pystr) : list pystr :=
  match s with
  | [] => [[]]
  | c :: s' =>
      match skip with
      | S k => split_from sep k s'
      | O =>
          if startswith sep s
          then [] :: split_from sep (Nat.pred (length sep)) s'
          else cons_hd c (split_from sep 0 s')
      end
  end.

Definition split (sep s : pystr) : list pystr := split_from sep 0 s.

(** [s.lstrip()], [s.rstrip()], [s.strip()]. *)
Fixpoint lstrip (s : pystr) : pystr :=
  match s with
  | [] => []
  | c :: s' => if isspace c then lstrip s' else s
  end.

Definition rstrip (s : pystr) : pystr := rev (lstrip (rev s)).

Definition strip (s : pystr) : pystr := rstrip (lstrip s).

(** [s.split()] with no argument: the maximal runs of non-whitespace. *)
Fixpoint split_ws (s : pystr) : list pystr :=
  match s with
  | [] => []
  | c :: s' =>
      if isspace c then split_ws s'
      else match s' with
           | [] => [[c]]
           | c' :: _ => if isspace c' then [c] :: split_ws s' else cons_hd c (split_ws s')
           end
  end.

(** [html.escape(s)] with its default [quote=True]. *)
Definition html_escape (s : pystr) : pystr :=
  let s := replace [AMP] (py "&amp;") s in
  let s := replace [LT] (py "&lt;") s in
  let s := replace [GT] (py "&gt;") s in
  let s := replace [DQUOTE] (py "&quot;") s in
  replace [SQUOTE] (py "&#x27;") s.

(** [a in s] for strings, as a proposition. *)
Definition contains (sub s : pystr) : Prop := exists a b, s = a ++ sub ++ b.

End Str.
Export Str.

(** ** Results of code that can raise *)

(** The exceptions the script can meet.  [UnicodeEncodeError] carries the
    codec that refused the text; [OtherError] stands for any other class
    (a replacement field can raise [AttributeError], [KeyError], ...). *)
Inductive exn : Type :=
  | ValueError (msg : string)
  | IndexError (msg : string)
  | UnicodeEncodeError (codec : string)
  | OtherError (kind msg : string).

Inductive result (A : Type) : Type :=
  | Ok (a : A)
  | Raise (e : exn).
Arguments Ok {A} a.
Arguments Raise {A} e.

(** Sequencing: the first exception raised is the one that propagates. *)
#[global] Instance result_bind : MBind result := fun A B k r =>
  match r with
  | Ok a => k a
  | Raise e => Raise e
  end.

(** ** What the script takes from Python's libraries *)

Class PyLib : Type := {
  (** [email.utils.parseaddr]: the (display name, address) pair of a
      free-form address. *)
  parseaddr : pystr -> pystr * pystr;
  (** [Py_UNICODE_TODECIMAL] above ASCII: the value of a code point that
      is a decimal digit of the Unicode database. *)
  unicode_decimal : N -> option N;
  (** The largest index of the build ([sys.maxsize]). *)
  PY_SSIZE_T_MAX : Z;
  (** [str.format_map] from a replacement field that uses an attribute, an
      index, a conversion or a format spec: given the mapping, the field
      name read so far and the template from the special character on, the
      rendering of the rest of the template. *)
  format_ext : row -> pystr -> pystr -> result pystr
}.

(** ** Helpers (lines 41-74) *)

Section Helpers.

Context `{PyLib}.

Local Open Scope N_scope.

(** Truth value of [None] / a string. *)
Definition truthy (v : option pystr) : bool :=
  match v with
  | None | Some [] => false
  | Some (_ :: _) => true
  end.

Definition clean_value (val : pystr) : pystr :=
  strip (replace [ZWSP] [] (replace [NBSP] [SPACE] val)).

Definition clean_email_address (raw_email : option pystr) : option pystr :=
  match raw_email with
  | None | Some [] => None
  | Some (c :: s) =>
      let raw := clean_value (c :: s) in
      let addr := snd (parseaddr raw) in
      if contains_char AT addr then Some addr else None
  end.

(** [template.format_map(defaultdict(str, mapping))].  The scanner follows
    CPython's [MarkupIterator_next] and [parse_field]: literal text with
    doubled braces as escapes, then a field name up to its closing brace. *)
Definition todecimal (c : N) : option N :=
  if c <? 128
  then (if (48 <=? c) && (c <=? 57) then Some (c - 48) else None)
  else unicode_decimal c.

Definition isdecimal (c : N) : bool :=
  match todecimal c with Some _ => true | None => false end.

(** CPython's [get_integer] on the rest [s] of a field name, with the value
    read so far: [None] when a character is not a decimal digit (the name
    is a key), an error as soon as the digits read exceed the largest
    index, the number otherwise. *)
Fixpoint get_integer (accumulator : Z) (s : pystr) : option (result Z) :=
  match s with
  | [] => Some (Ok accumulator)
  | c :: s' =>
      match todecimal c with
      | None => None
      | Some digitval =>
          if ((PY_SSIZE_T_MAX - Z.of_N digitval) / 10 <? accumulator)%Z
          then Some (Raise (ValueError "Too many decimal digits in format string"))
          else get_integer (accumulator * 10 + Z.of_N digitval)%Z s'
      end
  end.

Definition LBRACE : N := 123.
Definition RBRACE : N := 125.

Definition field_special (c : N) : bool :=
  (c =? 46) || (c =? 91) || (c =? 58) || (c =? 33).   (* . [ : ! *)

(** The value of the field [name].  An empty name is numbered
    automatically and a name that reads as a number is an index: both are
    positional, which [format_map] refuses.  Any other name is a key of the
    [defaultdict], where a missing key yields [str()]. *)
Definition lookup_field (mapping : row) (name : pystr) : result pystr :=
  match name with
  | [] => Raise (ValueError "Format string contains positional fields")
  | _ :: _ =>
      match get_integer 0 name with
      | Some (Raise e) => Raise e
      | Some (Ok _) => Raise (ValueError "Format string contains positional fields")
      | None => Ok (default [] (mapping !! name))
      end
  end.

Fixpoint format_text (mapping : row) (t : pystr) : result pystr :=
  match t with
  | [] => Ok []
  | c :: t' =>
      if c =? LBRACE then
        match t' with
        | [] => Raise (ValueError "Single '{' encountered in format string")
        | c' :: t'' =>
            if c' =? LBRACE
            then r ← format_text mapping t''; Ok (LBRACE :: r)
            else format_field mapping [] t'
        end
      else if c =? RBRACE then
        match t' with
        | [] => Raise (ValueError "Single '}' encountered in format string")
        | c' :: t'' =>
            if c' =? RBRACE
            then r ← format_text mapping t''; Ok (RBRACE :: r)
            else Raise (ValueError "Single '}' encountered in format string")
        end
      else r ← format_text mapping t'; Ok (c :: r)
  end
with format_field (mapping : row) (name : pystr) (t : pystr) : result pystr :=
  match t with
  | [] => Raise (ValueError "expected '}' before end of string")
  | c :: t' =>
      if c =? RBRACE then
        v ← lookup_field mapping name;
        r ← format_text mapping t';
        Ok (v ++ r)
      else if c =? LBRACE then Raise (ValueError "unexpected '{' in field name")
      else if field_special c then format_ext mapping name t
      else format_field mapping (name ++ [c]) t'
  end.

Definition safe_format (template : pystr) (mapping : row) : result pystr :=
  format_text mapping template.

Definition get_first_name (full_name : pystr) : result pystr :=
  match full_name with
  | [] => Ok []
  | _ :: _ =>
      match split_ws (strip full_name) with
      | [] => Raise (IndexError "list index out of range")
      | first :: _ => Ok first
      end
  end.

Definition P_OPEN : pystr := py "<p style='margin:0 0 16px 0; line-height:1.6;'>".
Definition P_CLOSE : pystr := py "</p>".
Definition BR : pystr := py "<br>".

Definition text_to_html (text : pystr) : pystr :=
  let text := replace [CR] [LF] (replace [CR; LF] [LF] text) in
  let text := html_escape text in
  let paragraphs := split [LF; LF] text in
  let html_blocks :=
    (fun para => P_OPEN ++ replace [LF] BR para ++ P_CLOSE) <$> paragraphs in
  concat html_blocks.

End Helpers.

(** ** Session state, environment and events (lines 15-38, 86-119) *)

Local Open Scope Z_scope.

Definition EMAILS_PER_BATCH : Z := 5.
Definition BATCH_COOLDOWN : Z := 120.
Definition DELAY_BETWEEN_EMAILS : Z := 22.

Record session_state : Type := {
  stop_sending : bool;
  sent_count : Z;
  last_sent_index : Z;
  resume_mode : bool;
  failed_rows : list row
}.

(** [defaults] (lines 29-35). *)
Definition defaults : session_state :=
  {| stop_sending := false; sent_count := 0; last_sent_index := -1;
     resume_mode := false; failed_rows := [] |}.

(** The operator's inputs (lines 88-95). *)
Record config : Type := {
  from_email : pystr;
  app_password : pystr;
  from_name : pystr;
  subject_tpl : pystr;
  body_tpl : pystr
}.

(** The message handed to the transport: the arguments of the MIME
    constructors of lines 157-161. *)
Record message : Type := {
  msg_from : pystr * pystr;
  msg_to : pystr;
  msg_subject : pystr;
  msg_html : pystr
}.

(** What happens outside the script during one pass: the outcome of the
    SMTP session of lines 164-167 for the message built at row [idx]
    ([None]: accepted; [Some d]: an [Exception] whose [str] is [d]), and
    whether the operator's Stop handler (lines 107-108) has run by the time
    the loop reaches row [idx]. *)
Record env : Type := {
  smtp : Z -> message -> option pystr;
  stop_pressed : Z -> bool
}.

Inductive level : Type := Success | Warning | Error.

Inductive event : Type :=
  | Transport (idx : Z) (m : message) (r : option pystr)
  | Notice (l : level) (text : pystr)
  | Progress (num den : Z)
  | Sleep (secs : Z).

Inductive outcome : Type :=
  | Completed
  | Stopped
  | Uncaught (e : exn).

Record pass : Type := {
  how : outcome;
  final : session_state;
  trace : list event
}.

(** A pass preceded by the events of an earlier turn. *)
Definition after (tr : list event) (p : pass) : pass :=
  {| how := how p; final := final p; trace := tr ++ trace p |}.

(** ** The dispatch loop (lines 122-184) *)

Section Dispatch.

Context `{PyLib}.
Variable cfg : config.
Variable world : env.

(** [df.iloc[idx]]: negative positions count from the end. *)
Definition iloc (df : list row) (idx : Z) : result row :=
  let n := Z.of_nat (length df) in
  let i := if idx <? 0 then idx + n else idx in
  if (0 <=? i) && (i <? n)
  then match df !! Z.to_nat i with
       | Some r => Ok r
       | None => Raise (IndexError "single positional indexer is out-of-bounds")
       end
  else Raise (IndexError "single positional indexer is out-of-bounds").

(** The indentation of the literal of lines 149-155: the file indents with
    pairs of a no-break space and a space, and inside the literal they are
    part of the text. *)
Definition indent (n : nat) : pystr := concat (replicate n [NBSP; SPACE]).

(** The fixed shell around the body (lines 149-155). *)
Definition html_shell (inner : pystr) : pystr :=
  [LF] ++ indent 4 ++ py "<html>" ++ [LF]
  ++ indent 5 ++ py "<body style=" ++ [DQUOTE]
  ++ py "font-family:'Times New Roman', serif; font-size:15px;" ++ [DQUOTE]
  ++ py ">" ++ [LF]
  ++ indent 6 ++ inner ++ [LF]
  ++ indent 5 ++ py "</body>" ++ [LF]
  ++ indent 4 ++ py "</html>" ++ [LF]
  ++ indent 4.

(** What the constructors of lines 157-161 check before anything is sent.
    [Header(s, "utf-8")] and [MIMEText(s, "html", "utf-8")] encode [s] as
    UTF-8, which refuses surrogate code points; [formataddr] encodes the
    address as ASCII.  Each raises [UnicodeEncodeError] otherwise. *)
Definition is_ascii (s : pystr) : bool := forallb (fun c => c <? 128)%N s.

Definition is_surrogate (c : N) : bool := ((55296 <=? c) && (c <=? 57343))%N.

Definition utf8_encodable (s : pystr) : bool :=
  forallb (fun c => negb (is_surrogate c)) s.

(** [str(Header(s, "utf-8"))]. *)
Definition Header (s : pystr) : result pystr :=
  if utf8_encodable s then Ok s else Raise (UnicodeEncodeError "utf-8").

(** [formataddr((name, address))]: the pair stands for the header value. *)
Definition formataddr (pair : pystr * pystr) : result (pystr * pystr) :=
  if is_ascii pair.2 then Ok pair else Raise (UnicodeEncodeError "ascii").

(** [MIMEText(text, "html", "utf-8")]: the text stands for the part. *)
Definition MIMEText (text : pystr) : result pystr :=
  if utf8_encodable text then Ok text else Raise (UnicodeEncodeError "utf-8").

(** Lines 142-161: rendering and assembly for a row with recipient [recip]. *)
Definition compose (r : row) (recip : pystr) : result message :=
  subject ← safe_format (subject_tpl cfg) r;
  first ← get_first_name (default [] (r !! py "name"));
  let body_row := <[py "name" := first]> r in
  body_text ← safe_format (body_tpl cfg) body_row;
  let html_body := html_shell (text_to_html body_text) in
  name ← Header (from_name cfg);
  sender ← formataddr (name, from_email cfg);
  subject ← Header subject;
  part ← MIMEText html_body;
  Ok {| msg_from := sender;
        msg_to := recip;
        msg_subject := subject;
        msg_html := part |}.

Definition on_sent (idx : Z) (st : session_state) : session_state :=
  {| stop_sending := stop_sending st;
     sent_count := sent_count st + 1;
     last_sent_index := idx;
     resume_mode := resume_mode st;
     failed_rows := failed_rows st |}.

Definition on_failed (r : row) (descr : pystr) (st : session_state) : session_state :=
  {| stop_sending := stop_sending st;
     sent_count := sent_count st;
     last_sent_index := last_sent_index st;
     resume_mode := resume_mode st;
     failed_rows := failed_rows st ++ [<[py "__error" := descr]> r] |}.

(** One turn of the [for] loop, from the stop check to the cooldown. *)
Inductive step : Type :=
  | Break (tr : list event)
  | Next (st : session_state) (sent_in_batch : Z) (tr : list event)
  | Abort (e : exn).

Definition pacing (idx total sent_in_batch : Z) (st : session_state)
    (tr : list event) : step :=
  let tr := tr ++ [Progress (idx + 1) total; Sleep DELAY_BETWEEN_EMAILS] in
  if EMAILS_PER_BATCH <=? sent_in_batch
  then Next st 0
         (tr ++ [Notice Warning (py "Cooling down for Gmail safety...");
                 Sleep BATCH_COOLDOWN])
  else Next st sent_in_batch tr.

Definition iteration (df : list row) (total idx : Z) (st : session_state)
    (sent_in_batch : Z) : step :=
  if stop_sending st
  then Break [Notice Warning (py "Sending stopped. You can resume later.")]
  else
    match iloc df idx with
    | Raise e => Abort e
    | Ok r =>
        match clean_email_address (r !! py "email") with
        | None => Next st sent_in_batch []
        | Some recip =>
            if negb (truthy (Some recip)) then Next st sent_in_batch []
            else
              match compose r recip with
              | Raise e => Abort e
              | Ok msg =>
                  match smtp world idx msg with
                  | None =>
                      pacing idx total (sent_in_batch + 1) (on_sent idx st)
                        [Transport idx msg None;
                         Notice Success (py "Sent to " ++ recip)]
                  | Some descr =>
                      pacing idx total sent_in_batch (on_failed r descr st)
                        [Transport idx msg (Some descr);
                         Notice Error (py "Failed: " ++ recip)]
                  end
              end
        end
    end.

(** The Stop handler, and its effect between two turns of the loop. *)
Definition on_stop (st : session_state) : session_state :=
  {| stop_sending := true;
     sent_count := sent_count st;
     last_sent_index := last_sent_index st;
     resume_mode := resume_mode st;
     failed_rows := failed_rows st |}.

Definition poll (idx : Z) (st : session_state) : session_state :=
  if stop_pressed world idx then on_stop st else st.

Fixpoint run (df : list row) (total : Z) (idxs : list Z) (st : session_state)
    (sent_in_batch : Z) : pass :=
  match idxs with
  | [] => {| how := Completed; final := st; trace := [] |}
  | idx :: rest =>
      let st := poll idx st in
      match iteration df total idx st sent_in_batch with
      | Break tr => {| how := Stopped; final := st; trace := tr |}
      | Abort e => {| how := Uncaught e; final := st; trace := [] |}
      | Next st' b tr => after tr (run df total rest st' b)
      end
  end.

Definition start_index (resume : bool) (st : session_state) : Z :=
  if resume then last_sent_index st + 1 else 0.

Definition send_bulk (df_to_send : list row) (resume : bool)
    (st : session_state) : pass :=
  let start := start_index resume st in
  let total := Z.of_nat (length df_to_send) in
  run df_to_send total (seqZ start (total - start)) st 0.

End Dispatch.

(** ** One run of the script (lines 102-119 and 186-199)

    Streamlit runs the script from the top on every interaction; the
    buttons are the booleans of that run.  UI calls are events and are taken
    not to raise.  [pd.DataFrame(failed_rows)] is taken to give back the
    recorded mappings (they share their columns). *)

Record buttons : Type := {
  send_btn : bool;
  stop_btn : bool;
  resume_btn : bool;
  retry_btn : bool
}.

Definition on_send (st : session_state) : session_state :=
  {| stop_sending := false; sent_count := 0; last_sent_index := -1;
     resume_mode := false; failed_rows := [] |}.

Definition on_resume (st : session_state) : session_state :=
  {| stop_sending := false;
     sent_count := sent_count st;
     last_sent_index := last_sent_index st;
     resume_mode := true;
     failed_rows := failed_rows st |}.

Definition on_retry (st : session_state) : session_state :=
  {| stop_sending := false;
     sent_count := sent_count st;
     last_sent_index := -1;
     resume_mode := resume_mode st;
     failed_rows := failed_rows st |}.

Definition idle (st : session_state) : pass :=
  {| how := Completed; final := st; trace := [] |}.

Section Script.

Context `{PyLib}.
Variable cfg : config.
Variable world : env.

(** Lines 107-119: the button handlers. *)
Definition handlers (b : buttons) (st : session_state) : session_state :=
  let st := if stop_btn b then on_stop st else st in
  let st := if send_btn b then on_send st else st in
  if resume_btn b then on_resume st else st.

(** Lines 187-188. *)
Definition execution (b : buttons) (df : option (list row))
    (st : session_state) : pass :=
  match df with
  | Some d =>
      if send_btn b || resume_btn b
      then send_bulk cfg world d (resume_mode st) st
      else idle st
  | None => idle st
  end.

(** Lines 191-199: the retry button exists only while there are failed rows. *)
Definition retry_failed (b : buttons) (st : session_state) : pass :=
  match failed_rows st with
  | [] => idle st
  | failed_df =>
      if retry_btn b
      then send_bulk cfg world failed_df false (on_retry st)
      else idle st
  end.

Definition script (b : buttons) (df : option (list row))
    (st : session_state) : pass :=
  let first := execution b df (handlers b st) in
  match how first with
  | Uncaught e => first
  | _ =>
      let second := retry_failed b (final first) in
      {| how := match how second with Completed => how first | o => o end;
         final := final second;
         trace := trace first ++ trace second |}
  end.

End Script.

Definition press_send : buttons :=
  {| send_btn := true; stop_btn := false; resume_btn := false; retry_btn := false |}.
Definition press_resume : buttons :=
  {| send_btn := false; stop_btn := false; resume_btn := true; retry_btn := false |}.
Definition press_retry : buttons :=
  {| send_btn := false; stop_btn := false; resume_btn := false; retry_btn := true |}.

(** ** Reading a trace *)

(** The transport calls of a trace, in order. *)
Definition attempts (tr : list event) : list (Z * message * option pystr) :=
  omap (fun ev => match ev with Transport i m r => Some (i, m, r) | _ => None end) tr.

Definition attempted_rows (tr : list event) : list Z :=
  (fun a => a.1.1) <$> attempts tr.

Definition subjects (tr : list event) : list pystr :=
  (fun a => msg_subject a.1.2) <$> attempts tr.

(** The rows whose message the transport accepted. *)
Definition sent_rows (tr : list event) : list Z :=
  omap (fun ev => match ev with Transport i _ None => Some i | _ => None end) tr.

(** ** One-pass readings of the text pipeline

    The script normalises, escapes and splits a body in several passes over
    the string; these scanners say the same in one pass each, and the
    facts below show that the passes compute them. *)

(** Line endings: a CR LF pair and a lone CR each become one LF. *)
Fixpoint normalize_newlines (s : pystr) : pystr :=
  match s with
  | [] => []
  | c :: s' =>
      if (c =? CR)%N then
        LF :: match s' with
              | [] => []
              | c' :: s'' =>
                  if (c' =? LF)%N then normalize_newlines s'' else normalize_newlines s'
              end
      else c :: normalize_newlines s'
  end.

(** Escaping, one character at a time. *)
Definition escape_char (c : N) : pystr :=
  if (c =? AMP)%N then py "&amp;"
  else if (c =? LT)%N then py "&lt;"
  else if (c =? GT)%N then py "&gt;"
  else if (c =? DQUOTE)%N then py "&quot;"
  else if (c =? SQUOTE)%N then py "&#x27;"
  else [c].

(** Paragraphs: a blank line closes the block and opens the next, a single
    newline is a line break, anything else is kept. *)
Fixpoint paragraphs (s : pystr) : pystr :=
  match s with
  | [] => []
  | c :: s' =>
      if (c =? LF)%N then
        match s' with
        | [] => BR
        | c' :: s'' =>
            if (c' =? LF)%N then P_CLOSE ++ P_OPEN ++ paragraphs s''
            else BR ++ paragraphs s'
        end
      else c :: paragraphs s'
  end.

(** Whether [a] is somewhere immediately followed by [b]. *)
Fixpoint adjacent (a b : N) (s : pystr) : bool :=
  match s with
  | [] => false
  | c :: s' =>
      match s' with
      | [] => false
      | c' :: _ => ((c =? a)%N && (c' =? b)%N) || adjacent a b s'
      end
  end.

(** One block of lines 68-72, and the blocks of a list of paragraphs
    without the opening tag of the first. *)
Definition block (para : pystr) : pystr :=
  P_OPEN ++ replace [LF] BR para ++ P_CLOSE.

Definition blocks_tail (l : list pystr) : pystr :=
  match l with
  | [] => []
  | h :: t => replace [LF] BR h ++ P_CLOSE ++ concat (block <$> t)
  end.


(** The second characters of the tags the formatter writes. *)
Definition tag_second (x : N) : Prop :=
  (x = 112 \/ x = 47 \/ x = 98)%N.   (* p / b *)

(** The first whitespace-delimited token: the characters after the leading
    whitespace, up to the next whitespace. *)
Fixpoint token (s : pystr) : pystr :=
  match s with
  | [] => []
  | c :: s' => if isspace c then [] else c :: token s'
  end.

Definition first_token (s : pystr) : pystr := token (lstrip s).

Definition blank (s : pystr) : Prop := Forall (fun c => isspace c = true) s.

(** ** Templates as the spec describes them *)

(** Literal text and placeholders. *)
Inductive piece : Type :=
  | Lit (s : pystr)
  | Field (key : pystr).

Section TemplateGrammar.

Context `{PyLib}.

Local Open Scope N_scope.

Definition is_brace (c : N) : bool := (c =? LBRACE) || (c =? RBRACE).

(** Literal text as it is written in a template: braces doubled. *)
Definition escape_braces (s : pystr) : pystr :=
  s ≫= fun c => if is_brace c then [c; c] else [c].

Definition template_of (ps : list piece) : pystr :=
  ps ≫= fun p =>
    match p with
    | Lit s => escape_braces s
    | Field k => LBRACE :: k ++ [RBRACE]
    end.

(** A key that a placeholder can name: no brace, none of the characters
    that start an attribute, an index, a conversion or a format spec, and
    not read as a number: not empty, not all digits, and no leading run of
    digits beyond the largest index.  A key that starts with a character
    other than a digit is one. *)
Definition plain_char (c : N) : bool := negb (is_brace c) && negb (field_special c).

Definition plain_key (k : pystr) : bool :=
  forallb plain_char k
  && match get_integer 0 k with None => true | Some _ => false end.

Definition piece_ok (p : piece) : Prop :=
  match p with
  | Lit _ => True
  | Field k => plain_key k = true
  end.

(** What the spec says the rendering is. *)
Definition instantiate (mapping : row) (ps : list piece) : pystr :=
  ps ≫= fun p =>
    match p with
    | Lit s => s
    | Field k => default [] (mapping !! k)
    end.

(** Rendering the subject or the body of row [r] raises [e]. *)
Definition render_fails (cfg : config) (r : row) (e : exn) : Prop :=
  safe_format (subject_tpl cfg) r = Raise e
  \/ exists subject first,
       safe_format (subject_tpl cfg) r = Ok subject
       /\ get_first_name (default [] (r !! py "name")) = Ok first
       /\ safe_format (body_tpl cfg) (<[py "name" := first]> r) = Raise e.

End TemplateGrammar.

(** ** Pacing *)

(** The pacing of a pass: accepted sends and cooldown pauses, in order. *)
Inductive beat : Type := Sent | Cooldown.

Definition beats (tr : list event) : list beat :=
  omap (fun ev =>
          match ev with
          | Transport _ _ None => Some Sent
          | Sleep secs => if secs =? BATCH_COOLDOWN then Some Cooldown else None
          | _ => None
          end) tr.

(** [sends] accepted sends, the first of them with [in_batch] sends already
    in the batch: a cooldown follows every send that fills the batch. *)
Fixpoint cadence (in_batch : Z) (sends : nat) : list beat :=
  match sends with
  | O => []
  | S n =>
      Sent :: (if EMAILS_PER_BATCH <=? in_batch + 1
               then Cooldown :: cadence 0 n
               else cadence (in_batch + 1) n)
  end.

(** ** Sample inputs *)

(** The library on the inputs the examples use, on a 64-bit build: a bare
    address parses to itself with an empty display name.  No example has a
    digit above ASCII or a replacement field that reaches [format_ext]. *)
Definition sample_lib : PyLib :=
  {| parseaddr := fun s => ([], s);
     unicode_decimal := fun _ => None;
     PY_SSIZE_T_MAX := 9223372036854775807;
     format_ext := fun _ _ _ => Raise (ValueError "unsupported replacement field") |}.

Definition mk_row (email name : string) : row :=
  <[py "email" := py email]> (<[py "name" := py name]> ∅).

Definition table3 : list row :=
  [mk_row "a@x.com" "Al Pha"; mk_row "bad" "Be Ta"; mk_row "c@x.com" "Ga Ma"].

Definition cfg_hi (subject body : string) : config :=
  {| from_email := py "me@gmail.com"; app_password := py "secret";
     from_name := py "Team"; subject_tpl := py subject; body_tpl := py body |}.

Definition always_ok : env :=
  {| smtp := fun _ _ => None; stop_pressed := fun _ => false |}.

Definition letter (cfg : config) (to subject body : string) : message :=
  {| msg_from := (from_name cfg, from_email cfg);
     msg_to := py to;
     msg_subject := py subject;
     msg_html := html_shell (P_OPEN ++ py body ++ P_CLOSE) |}.

Definition table_abc : list row :=
  [mk_row "a@x.com" "Al Pha"; mk_row "b@x.com" "Be Ta"; mk_row "c@x.com" "Ga Ma"].

Definition table6 : list row :=
  table_abc
  ++ [mk_row "d@x.com" "De Lta"; mk_row "e@x.com" "Ep Si"; mk_row "f@x.com" "Ze Ta"].

(** The transport refuses row [i] with description [descr]. *)
Definition failing_at (i : Z) (descr : string) : env :=
  {| smtp := fun idx _ => if idx =? i then Some (py descr) else None;
     stop_pressed := fun _ => false |}.

(** The operator presses Stop before the loop reaches row [i]. *)
Definition stop_at (i : Z) : env :=
  {| smtp := fun _ _ => None; stop_pressed := fun idx => idx =? i |}.

(** The session after a fresh Send over [table_abc] in which the transport
    refused row 1: rows 0 and 2 are sent, row 1 is in [failed_rows]. *)
Definition after_send : session_state :=
  final (script (H := sample_lib) (cfg_hi "Hi {name}" "Hello {name}")
           (failing_at 1 "rejected") press_send (Some table_abc) defaults).

(** ** The upload, and further readings of a pass *)

(** [df.applymap(f)] (line 82): [f] on every cell of the table. *)
Definition applymap (f : pystr -> pystr) (df : list row) : list row :=
  (fun r : row => f <$> r) <$> df.

(** The rows of a range the loop can reach before Stop is pressed. *)
Fixpoint until_stop (world : env) (idxs : list Z) : list Z :=
  match idxs with
  | [] => []
  | idx :: rest => if stop_pressed world idx then [] else idx :: until_stop world rest
  end.

(** The records line 176 writes for the refused transport calls of a trace
    over the table [df]. *)
Definition failure_records (df : list row) (tr : list event) : list row :=
  omap (fun ev =>
          match ev with
          | Transport idx _ (Some descr) =>
              match iloc df idx with
              | Ok r => Some (<[py "__error" := descr]> r)
              | Raise _ => None
              end
          | _ => None
          end) tr.

(** The seconds a trace spends in [time.sleep]. *)
Fixpoint slept (tr : list event) : Z :=
  match tr with
  | [] => 0
  | Sleep secs :: tr' => secs + slept tr'
  | _ :: tr' => slept tr'
  end.

(** * Facts *)

(** ** String primitives *)

Section StrFacts.

Local Open Scope N_scope.

Lemma list_ind2 {A} (P : list A -> Prop) :
  P [] -> (forall a, P [a]) ->
  (forall a b l, P l -> P (b :: l) -> P (a :: b :: l)) ->
  forall l, P l.
Proof.
  intros Hnil Hone Hstep l.
  assert (P l /\ forall a, P (a :: l)) as [Hl _]; [|exact Hl].
  induction l as [|b l [IH1 IH2]]; split; auto.
Qed.

Lemma replace_from_drop old new k s :
  replace_from old new k s = replace_from old new 0 (drop k s).
Proof.
  revert k. induction s as [|c s IH]; intros [|k]; simpl; auto.
Qed.

Lemma split_from_drop sep k s :
  split_from sep k s = split_from sep 0 (drop k s).
Proof.
  revert k. induction s as [|c s IH]; intros [|k]; simpl; auto.
Qed.

Lemma replace_from_cons old new c s :
  replace_from old new 0 (c :: s)
  = if startswith old (c :: s)
    then new ++ replace_from old new 0 (drop (Nat.pred (length old)) s)
    else c :: replace_from old new 0 s.
Proof. rewrite <- replace_from_drop. reflexivity. Qed.

Lemma split_from_cons sep c s :
  split_from sep 0 (c :: s)
  = if startswith sep (c :: s)
    then [] :: split_from sep 0 (drop (Nat.pred (length sep)) s)
    else cons_hd c (split_from sep 0 s).
Proof. rewrite <- split_from_drop. reflexivity. Qed.

Lemma split_from_nonempty sep k s : split_from sep k s <> [].
Proof.
  revert k. induction s as [|c s IH]; intros k; simpl; [done|].
  destruct k; [|apply IH].
  destruct (startswith sep (c :: s)); [done|].
  specialize (IH 0%nat). destruct (split_from sep 0 s); done.
Qed.

(** Replacing a single character is a character-wise substitution. *)
Lemma replace_char a new s :
  replace [a] new s = s ≫= (fun c => if a =? c then new else [c]).
Proof.
  unfold replace. induction s as [|c s IH]; [done|].
  rewrite bind_cons, <- IH. simpl.
  destruct (a =? c); simpl; reflexivity.
Qed.

Lemma html_escape_chars s : html_escape s = s ≫= escape_char.
Proof.
  unfold html_escape. rewrite !replace_char.
  induction s as [|c s IH]; [done|].
  rewrite !bind_cons, !bind_app, IH. f_equal.
  unfold escape_char, AMP, LT, GT, DQUOTE, SQUOTE.
  destruct (N.eqb_spec 38 c) as [<-|]; [reflexivity|].
  destruct (N.eqb_spec 60 c) as [<-|]; [reflexivity|].
  destruct (N.eqb_spec 62 c) as [<-|]; [reflexivity|].
  destruct (N.eqb_spec 34 c) as [<-|]; [reflexivity|].
  destruct (N.eqb_spec 39 c) as [<-|]; [reflexivity|].
  rewrite !(proj2 (N.eqb_neq c _)) by congruence.
  repeat (rewrite bind_singleton; cbv beta;
          rewrite (proj2 (N.eqb_neq _ c)) by congruence).
  reflexivity.
Qed.

Lemma html_escape_app a b : html_escape (a ++ b) = html_escape a ++ html_escape b.
Proof. rewrite !html_escape_chars. apply bind_app. Qed.

(** The two replacement passes of line 62 are the one-pass normalisation. *)
Lemma normalize_passes s :
  replace [CR] [LF] (replace [CR; LF] [LF] s) = normalize_newlines s.
Proof.
  rewrite replace_char. unfold replace.
  induction s as [|a|a b l IH1 IH2] using list_ind2.
  - reflexivity.
  - cbn [replace_from startswith normalize_newlines].
    rewrite andb_false_r, bind_singleton, (N.eqb_sym CR a).
    destruct (a =? CR); reflexivity.
  - rewrite (replace_from_cons _ _ a).
    cbn [startswith length Nat.pred drop normalize_newlines].
    rewrite drop_0, andb_true_r.
    rewrite (N.eqb_sym CR a), (N.eqb_sym LF b).
    destruct (N.eqb_spec a CR) as [->|Ha]; cbn [andb].
    + destruct (N.eqb_spec b LF) as [->|Hb].
      * rewrite bind_app, bind_singleton, IH1. reflexivity.
      * rewrite bind_cons, IH2. reflexivity.
    + rewrite bind_cons, IH2.
      rewrite (proj2 (N.eqb_neq CR a)) by congruence. reflexivity.
Qed.

Lemma normalize_newlines_no_cr s : CR ∉ normalize_newlines s.
Proof.
  induction s as [|a|a b l IH1 IH2] using list_ind2.
  - apply not_elem_of_nil.
  - cbn [normalize_newlines]. destruct (N.eqb_spec a CR).
    + rewrite list_elem_of_singleton. discriminate.
    + rewrite list_elem_of_singleton. congruence.
  - cbn [normalize_newlines] in *.
    destruct (N.eqb_spec a CR).
    + rewrite elem_of_cons. intros [Hc|Hin]; [discriminate|].
      destruct (b =? LF); [exact (IH1 Hin)|exact (IH2 Hin)].
    + rewrite elem_of_cons. intros [Hc|Hin]; [congruence|exact (IH2 Hin)].
Qed.

Lemma normalize_newlines_cons2 x y l :
  normalize_newlines (x :: y :: l)
  = if x =? CR
    then LF :: (if y =? LF then normalize_newlines l else normalize_newlines (y :: l))
    else x :: normalize_newlines (y :: l).
Proof. reflexivity. Qed.

(** A piece that does not begin with LF is normalised on its own. *)
Lemma normalize_newlines_app a r :
  head r <> Some LF ->
  normalize_newlines (a ++ r) = normalize_newlines a ++ normalize_newlines r.
Proof.
  intros Hr. induction a as [|x|x y l IH1 IH2] using list_ind2.
  - reflexivity.
  - cbn [app normalize_newlines]. destruct (x =? CR); [|reflexivity].
    destruct r as [|c r]; [reflexivity|].
    destruct (N.eqb_spec c LF) as [->|]; [by destruct Hr|reflexivity].
  - change ((x :: y :: l) ++ r) with (x :: y :: (l ++ r)).
    rewrite !normalize_newlines_cons2.
    change (y :: (l ++ r)) with ((y :: l) ++ r).
    rewrite IH1, IH2.
    destruct (x =? CR); [|reflexivity].
    destruct (y =? LF); reflexivity.
Qed.

(** The blocks of lines 65-74 are the one-pass paragraph reading, between
    one opening and one closing tag. *)
Lemma blocks_tail_open l : l <> [] -> concat (block <$> l) = P_OPEN ++ blocks_tail l.
Proof. destruct l; [done|]. intros _. unfold block. simpl. by rewrite <- !app_assoc. Qed.

Lemma blocks_tail_cons_hd c l :
  l <> [] -> blocks_tail (cons_hd c l) = (if LF =? c then BR else [c]) ++ blocks_tail l.
Proof.
  destruct l as [|h t]; [done|]. intros _. cbn [cons_hd blocks_tail].
  rewrite !replace_char, bind_cons, <- app_assoc. reflexivity.
Qed.

Lemma blocks_tail_break l :
  l <> [] -> blocks_tail ([] :: l) = P_CLOSE ++ P_OPEN ++ blocks_tail l.
Proof.
  intros Hl. cbn [blocks_tail]. rewrite blocks_tail_open by done. reflexivity.
Qed.

Lemma paragraphs_cons2 x y l :
  paragraphs (x :: y :: l)
  = if x =? LF
    then (if y =? LF then P_CLOSE ++ P_OPEN ++ paragraphs l else BR ++ paragraphs (y :: l))
    else x :: paragraphs (y :: l).
Proof. reflexivity. Qed.

Lemma paragraphs_passes s :
  blocks_tail (split [LF; LF] s) = paragraphs s ++ P_CLOSE.
Proof.
  unfold split.
  induction s as [|a|a b l IH1 IH2] using list_ind2.
  - reflexivity.
  - cbn [split_from startswith paragraphs]. rewrite andb_false_r.
    cbn [cons_hd blocks_tail]. rewrite replace_char, bind_singleton.
    rewrite (N.eqb_sym LF a). destruct (a =? LF); reflexivity.
  - rewrite (split_from_cons _ a), paragraphs_cons2.
    cbn [startswith length Nat.pred drop].
    rewrite drop_0, andb_true_r, (N.eqb_sym LF a), (N.eqb_sym LF b).
    destruct (N.eqb_spec a LF) as [->|Ha]; cbn [andb].
    + destruct (N.eqb_spec b LF) as [->|Hb].
      * rewrite blocks_tail_break by apply split_from_nonempty.
        rewrite IH1, <- !app_assoc. reflexivity.
      * rewrite blocks_tail_cons_hd by apply split_from_nonempty.
        rewrite IH2, <- app_assoc. reflexivity.
    + rewrite blocks_tail_cons_hd by apply split_from_nonempty.
      rewrite IH2, (proj2 (N.eqb_neq LF a)) by congruence. reflexivity.
Qed.

Lemma text_to_html_scan text :
  text_to_html text
  = P_OPEN ++ paragraphs (html_escape (normalize_newlines text)) ++ P_CLOSE.
Proof.
  unfold text_to_html. rewrite normalize_passes.
  change (concat _) with (concat (block <$> split [LF; LF] (html_escape (normalize_newlines text)))).
  rewrite blocks_tail_open by apply split_from_nonempty.
  by rewrite paragraphs_passes.
Qed.

Lemma paragraphs_app a r :
  head r <> Some LF -> paragraphs (a ++ r) = paragraphs a ++ paragraphs r.
Proof.
  intros Hr. induction a as [|x|x y l IH1 IH2] using list_ind2.
  - reflexivity.
  - cbn [app]. destruct r as [|c r].
    + cbn [paragraphs]. destruct (x =? LF); by rewrite ?app_nil_r.
    + rewrite paragraphs_cons2. cbn [paragraphs app].
      destruct (x =? LF); [|reflexivity].
      destruct (N.eqb_spec c LF) as [->|]; [by destruct Hr|reflexivity].
  - change ((x :: y :: l) ++ r) with (x :: y :: (l ++ r)).
    rewrite !paragraphs_cons2.
    change (y :: (l ++ r)) with ((y :: l) ++ r).
    rewrite IH1, IH2.
    destruct (x =? LF); [|reflexivity].
    destruct (y =? LF); by rewrite <- ?app_assoc.
Qed.

Lemma escape_char_no_lt c : LT ∉ escape_char c.
Proof.
  unfold escape_char.
  repeat (match goal with |- context [if ?b then _ else _] => destruct b eqn:? end);
    rewrite list_elem_of_In; simpl; try (intuition discriminate).
  intros [Hc|[]]. subst c. discriminate.
Qed.

Lemma html_escape_no_lt s : LT ∉ html_escape s.
Proof.
  rewrite html_escape_chars, list_elem_of_bind.
  intros (c & Hin & _). by apply escape_char_no_lt in Hin.
Qed.

Lemma adjacent_skip a b c x : c <> a -> adjacent a b (c :: x) = adjacent a b x.
Proof.
  intros Hc. destruct x as [|c' x]; [reflexivity|].
  change (adjacent a b (c :: c' :: x))
    with ((c =? a) && (c' =? b) || adjacent a b (c' :: x)).
  by rewrite (proj2 (N.eqb_neq c a)).
Qed.

Lemma adjacent_found a b u v : adjacent a b (u ++ a :: b :: v) = true.
Proof.
  induction u as [|c u IH].
  - cbn [app adjacent]. by rewrite !N.eqb_refl.
  - cbn [app]. destruct (u ++ a :: b :: v) as [|c' w] eqn:E; [by destruct u|].
    change (adjacent a b (c :: c' :: w))
      with ((c =? a) && (c' =? b) || adjacent a b (c' :: w)).
    rewrite IH. apply orb_true_r.
Qed.

Lemma adjacent_cons2 a b c c' x :
  adjacent a b (c :: c' :: x) = (c =? a) && (c' =? b) || adjacent a b (c' :: x).
Proof. reflexivity. Qed.

(** A generated tag adds no "<" followed by anything but its own second
    character. *)
Ltac pass_tag :=
  cbn [app]; rewrite adjacent_cons2;
  match goal with
  | H : ~ tag_second ?x |- context [(?k =? ?x)] =>
      rewrite (proj2 (N.eqb_neq k x)) by (intros <-; apply H; unfold tag_second; auto)
  end;
  rewrite andb_false_r; cbn [orb];
  repeat (rewrite adjacent_skip by discriminate); reflexivity.

Lemma adjacent_p_open x t :
  ~ tag_second x -> adjacent LT x (P_OPEN ++ t) = adjacent LT x t.
Proof.
  intros Hx. let v := eval vm_compute in P_OPEN in change P_OPEN with v.
  pass_tag.
Qed.

Lemma adjacent_p_close x t :
  ~ tag_second x -> adjacent LT x (P_CLOSE ++ t) = adjacent LT x t.
Proof.
  intros Hx. let v := eval vm_compute in P_CLOSE in change P_CLOSE with v.
  pass_tag.
Qed.

Lemma adjacent_br x t :
  ~ tag_second x -> adjacent LT x (BR ++ t) = adjacent LT x t.
Proof.
  intros Hx. let v := eval vm_compute in BR in change BR with v.
  pass_tag.
Qed.

(** In the paragraph reading of a text without "<", a "<" is followed by
    the second character of a generated tag only. *)
Lemma paragraphs_tags_only x s t :
  ~ tag_second x -> LT ∉ s ->
  adjacent LT x (paragraphs s ++ t) = adjacent LT x t.
Proof.
  intros Hx Hs. induction s as [|c|c y l IH1 IH2] using list_ind2.
  - reflexivity.
  - apply not_elem_of_cons in Hs as [Hc _]. cbn [paragraphs].
    destruct (c =? LF).
    + by apply adjacent_br.
    + cbn [app]. by rewrite adjacent_skip.
  - apply not_elem_of_cons in Hs as [Hc Hs]. specialize (IH2 Hs).
    apply not_elem_of_cons in Hs as [Hy Hs]. specialize (IH1 Hs).
    rewrite paragraphs_cons2.
    destruct (c =? LF).
    + destruct (y =? LF).
      * by rewrite <- !app_assoc, adjacent_p_close, adjacent_p_open.
      * by rewrite <- app_assoc, adjacent_br.
    + cbn [app]. by rewrite adjacent_skip.
Qed.

Lemma text_to_html_tags_only x text :
  ~ tag_second x -> adjacent LT x (text_to_html text) = false.
Proof.
  intros Hx. rewrite text_to_html_scan, adjacent_p_open by done.
  rewrite paragraphs_tags_only by (done || apply html_escape_no_lt).
  rewrite <- (app_nil_r P_CLOSE). by rewrite adjacent_p_close.
Qed.

End StrFacts.

(** ** Names *)

Section NameFacts.

Lemma lstrip_spec s : exists w, s = w ++ lstrip s /\ blank w.
Proof.
  induction s as [|c s (w & Hs & Hw)].
  - exists []. split; [done|constructor].
  - cbn [lstrip]. destruct (isspace c) eqn:Hc.
    + exists (c :: w). split; [by rewrite Hs at 1|by constructor].
    + exists []. split; [done|constructor].
Qed.

Lemma lstrip_blank s : forallb isspace s = true -> lstrip s = [].
Proof.
  induction s as [|c s IH]; [done|]. cbn [forallb lstrip].
  intros [Hc Hs]%andb_prop. rewrite Hc. by apply IH.
Qed.

Lemma lstrip_head s :
  forallb isspace s = false -> exists c t, lstrip s = c :: t /\ isspace c = false.
Proof.
  induction s as [|c s IH]; [done|]. cbn [forallb lstrip].
  destruct (isspace c) eqn:Hc; [apply IH|]. intros _. by exists c, s.
Qed.

Lemma rstrip_spec u : exists w, u = rstrip u ++ w /\ blank w.
Proof.
  unfold rstrip. destruct (lstrip_spec (rev u)) as (w & Hu & Hw).
  exists (rev w). split.
  - rewrite <- rev_app_distr, <- Hu. by rewrite rev_involutive.
  - by apply List.Forall_rev.
Qed.

Lemma token_app_blank v w : blank w -> token (v ++ w) = token v.
Proof.
  intros Hw. induction v as [|c v IH].
  - destruct Hw as [|c w Hc _]; [done|]. cbn [app token]. by rewrite Hc.
  - cbn [app token]. by rewrite IH.
Qed.

Lemma split_ws_head c t :
  isspace c = false -> exists rest, split_ws (c :: t) = token (c :: t) :: rest.
Proof.
  revert c. induction t as [|c' t IH]; intros c Hc.
  - exists []. cbn [split_ws token]. by rewrite Hc.
  - change (split_ws (c :: c' :: t))
      with (if isspace c then split_ws (c' :: t)
            else if isspace c' then [c] :: split_ws (c' :: t)
                 else cons_hd c (split_ws (c' :: t))).
    change (token (c :: c' :: t))
      with (if isspace c then [] else c :: token (c' :: t)).
    rewrite Hc. destruct (isspace c') eqn:Hc'.
    + eexists. cbn [token]. by rewrite Hc'.
    + destruct (IH c' Hc') as (rest & ->). by exists rest.
Qed.

Lemma get_first_name_cases full :
  get_first_name full
  = if forallb isspace full
    then match full with
         | [] => Ok []
         | _ :: _ => Raise (IndexError "list index out of range")
         end
    else Ok (first_token full).
Proof.
  destruct (forallb isspace full) eqn:Hall.
  - destruct full as [|c s]; [done|]. unfold get_first_name, strip.
    by rewrite (lstrip_blank _ Hall).
  - destruct full as [|c0 s0]; [done|].
    unfold get_first_name, strip, first_token.
    destruct (lstrip_head _ Hall) as (c & t & -> & Hc).
    destruct (rstrip_spec (c :: t)) as (w & Hu & Hw).
    destruct (rstrip (c :: t)) as [|c' t'] eqn:Hr.
    + cbn [app] in Hu. subst w. apply Forall_cons in Hw as [Hw _]. congruence.
    + injection Hu as <- Ht.
      destruct (split_ws_head c t' Hc) as (rest & ->).
      f_equal. change (c :: t) with ([c] ++ t). rewrite Ht.
      change ([c] ++ t' ++ w) with ((c :: t') ++ w).
      by rewrite token_app_blank.
Qed.

(** What stripping leaves: a part of the string with no whitespace at
    either end. *)
Lemma lstrip_head_nonspace s c : head (lstrip s) = Some c -> isspace c = false.
Proof.
  induction s as [|x s IH]; [done|]. cbn [lstrip].
  destruct (isspace x) eqn:Hx; [exact IH|]. by intros [= <-].
Qed.

Lemma strip_spec s : exists w w', s = w ++ strip s ++ w' /\ blank w /\ blank w'.
Proof.
  unfold strip. destruct (lstrip_spec s) as (w & Hs & Hw).
  destruct (rstrip_spec (lstrip s)) as (w' & Hu & Hw').
  exists w, w'. by rewrite <- Hu.
Qed.

Lemma strip_ends s :
  (forall c, head (strip s) = Some c -> isspace c = false)
  /\ (forall c, last (strip s) = Some c -> isspace c = false).
Proof.
  split; intros c Hc.
  - apply (lstrip_head_nonspace s).
    destruct (rstrip_spec (lstrip s)) as (w' & Hu & _). unfold strip in Hc.
    rewrite Hu. destruct (rstrip (lstrip s)); [done|exact Hc].
  - unfold strip, rstrip in Hc.
    apply (lstrip_head_nonspace (rev (lstrip s))).
    destruct (lstrip (rev (lstrip s))) as [|x l]; [done|].
    cbn [rev] in Hc. rewrite last_snoc in Hc. exact Hc.
Qed.

Lemma replace_char_gone a new s : a ∉ new -> a ∉ replace [a] new s.
Proof.
  intros Hnew. rewrite replace_char, list_elem_of_bind. intros (y & Hin & _).
  destruct (N.eqb_spec a y) as [->|Hne]; [done|].
  apply list_elem_of_singleton in Hin. done.
Qed.

Lemma replace_char_fresh a b new s : b ∉ s -> b ∉ new -> b ∉ replace [a] new s.
Proof.
  intros Hs Hnew. rewrite replace_char, list_elem_of_bind. intros (y & Hin & Hy).
  destruct (a =? y)%N; [done|].
  apply list_elem_of_singleton in Hin. by subst y.
Qed.

End NameFacts.

(** C10 fails on the code: a name of blanks only passes the emptiness test
    of line 57, [strip().split()] is the empty list and [[0]] raises.  On
    every other input the function returns as the spec says: the empty
    string for the empty string, the first token otherwise. *)
Theorem get_first_name_blank_raises :
  get_first_name (py "   ") = Raise (IndexError "list index out of range")
  /\ (forall full,
        get_first_name full
        = if forallb isspace full
          then match full with
               | [] => Ok []
               | _ :: _ => Raise (IndexError "list index out of range")
               end
          else Ok (first_token full))
  /\ get_first_name (py "Al Pha") = Ok (py "Al").
Proof. split; [reflexivity|]. split; [apply get_first_name_cases|reflexivity]. Qed.

(** ** The value sanitizer *)

(** A cleaned cell holds no non-breaking space and no zero-width space and
    neither begins nor ends with whitespace. *)
Theorem clean_value_clean val :
  (NBSP ∉ clean_value val)
  /\ (ZWSP ∉ clean_value val)
  /\ (forall c, head (clean_value val) = Some c -> isspace c = false)
  /\ (forall c, last (clean_value val) = Some c -> isspace c = false).
Proof.
  unfold clean_value.
  set (s := replace [ZWSP] [] (replace [NBSP] [SPACE] val)).
  assert (NBSP ∉ s) as Hn.
  { apply replace_char_fresh; [|apply not_elem_of_nil].
    apply replace_char_gone. by intros [=]%list_elem_of_singleton. }
  assert (ZWSP ∉ s) as Hz by apply replace_char_gone, not_elem_of_nil.
  destruct (strip_spec s) as (w & w' & Hs & _).
  assert (forall x, x ∈ strip s -> x ∈ s) as Hsub.
  { intros x Hx. rewrite Hs, !elem_of_app. auto. }
  split; [by intros ?%Hsub|]. split; [by intros ?%Hsub|]. apply strip_ends.
Qed.

(** ** The message formatter *)

(** C9. For every input, [text_to_html] turns each CR LF and each lone CR
    into LF (no CR is left), escapes every character of the text
    ([html_escape] is the character-wise [escape_char]), and lays the
    result out as paragraph blocks: a blank line closes a block and opens
    the next, a single newline becomes a line break.  An input containing
    <script> gives an output containing &lt;script&gt;; no output contains
    <script>, and in every output a "<" is followed by the second character
    of a tag the function wrote itself.  "Hello\n\nWorld" gives two blocks,
    "Hello\nWorld" one block with a line break. *)
Theorem text_to_html_correct :
  (forall text,
      replace [CR] [LF] (replace [CR; LF] [LF] text) = normalize_newlines text
      /\ CR ∉ normalize_newlines text)
  /\ (forall text, html_escape text = text ≫= escape_char)
  /\ (forall text,
      text_to_html text
      = P_OPEN ++ paragraphs (html_escape (normalize_newlines text)) ++ P_CLOSE)
  /\ (forall a b,
      contains (py "&lt;script&gt;") (text_to_html (a ++ py "<script>" ++ b)))
  /\ (forall text, ~ contains (py "<script>") (text_to_html text))
  /\ (forall text x, adjacent LT x (text_to_html text) = true -> tag_second x)
  /\ text_to_html (py "Hello" ++ [LF; LF] ++ py "World")
     = P_OPEN ++ py "Hello" ++ P_CLOSE ++ P_OPEN ++ py "World" ++ P_CLOSE
  /\ text_to_html (py "Hello" ++ [LF] ++ py "World")
     = P_OPEN ++ py "Hello" ++ BR ++ py "World" ++ P_CLOSE.
Proof.
  split; [|split; [|split; [|split; [|split; [|split; [|split]]]]]].
  - intros text. split; [apply normalize_passes|apply normalize_newlines_no_cr].
  - apply html_escape_chars.
  - apply text_to_html_scan.
  - intros a b. rewrite text_to_html_scan.
    rewrite normalize_newlines_app by discriminate.
    change (normalize_newlines (py "<script>" ++ b))
      with (py "<script>" ++ normalize_newlines b).
    rewrite !html_escape_app.
    change (html_escape (py "<script>")) with (py "&lt;script&gt;").
    rewrite paragraphs_app by discriminate.
    change (paragraphs (py "&lt;script&gt;" ++ html_escape (normalize_newlines b)))
      with (py "&lt;script&gt;" ++ paragraphs (html_escape (normalize_newlines b))).
    exists (P_OPEN ++ paragraphs (html_escape (normalize_newlines a))).
    eexists. rewrite <- !app_assoc. reflexivity.
  - intros text (a & b & E).
    assert (adjacent LT 115 (text_to_html text) = false) as Hno.
    { apply text_to_html_tags_only. unfold tag_second. lia. }
    rewrite E in Hno.
    change (a ++ py "<script>" ++ b)
      with (a ++ LT :: 115%N :: (py "cript>" ++ b)) in Hno.
    by rewrite adjacent_found in Hno.
  - intros text x Hadj.
    destruct (decide (tag_second x)) as [|Hx]; [done|].
    by rewrite text_to_html_tags_only in Hadj.
  - reflexivity.
  - reflexivity.
Qed.

(** ** The template renderer *)

Section Renderer.

Context `{PyLib}.

Local Open Scope N_scope.

Lemma format_text_other m c t :
  is_brace c = false ->
  format_text m (c :: t) = r ← format_text m t; Ok (c :: r).
Proof.
  unfold is_brace. intros Hc. apply orb_false_elim in Hc as [Hl Hr].
  cbn [format_text]. by rewrite Hl, Hr.
Qed.

Lemma format_text_literal m s rest :
  format_text m (escape_braces s ++ rest) = r ← format_text m rest; Ok (s ++ r).
Proof.
  unfold escape_braces. induction s as [|c s IH].
  - cbn. by destruct (format_text m rest).
  - rewrite bind_cons, <- app_assoc.
    destruct (is_brace c) eqn:Hc.
    + cbn [app].
      assert (forall X, format_text m (c :: c :: X)
                        = r ← format_text m X; Ok (c :: r)) as ->.
      { intros X. unfold is_brace in Hc. cbn [format_text].
        destruct (N.eqb_spec c LBRACE) as [->|Hl]; [reflexivity|].
        destruct (N.eqb_spec c RBRACE) as [->|Hr]; [reflexivity|discriminate]. }
      rewrite IH. by destruct (format_text m rest).
    + cbn [app]. rewrite format_text_other, IH by done.
      by destruct (format_text m rest).
Qed.

Lemma format_field_plain m acc k rest :
  forallb plain_char k = true ->
  format_field m acc (k ++ RBRACE :: rest)
  = v ← lookup_field m (acc ++ k); r ← format_text m rest; Ok (v ++ r).
Proof.
  revert acc. induction k as [|c k IH]; intros acc Hk.
  - rewrite app_nil_r. reflexivity.
  - cbn [forallb] in Hk. apply andb_prop in Hk as [Hc Hk].
    unfold plain_char, is_brace in Hc.
    apply andb_prop in Hc as [Hb Hs].
    apply negb_true_iff, orb_false_elim in Hb as [Hl Hr].
    apply negb_true_iff in Hs.
    cbn [app format_field]. rewrite Hl, Hr, Hs, IH by done.
    by rewrite <- app_assoc.
Qed.

Lemma format_text_field m k rest :
  plain_key k = true ->
  format_text m (LBRACE :: k ++ RBRACE :: rest)
  = r ← format_text m rest; Ok (default [] (m !! k) ++ r).
Proof.
  unfold plain_key. intros Hk. apply andb_prop in Hk as [Hp Hd].
  destruct (get_integer 0 k) as [|] eqn:Hg; [discriminate|].
  destruct k as [|c k]; [discriminate|].
  assert ((c =? LBRACE) = false) as Hl.
  { cbn [forallb] in Hp. apply andb_prop in Hp as [Hc _].
    unfold plain_char, is_brace in Hc. apply andb_prop in Hc as [Hb _].
    by apply negb_true_iff, orb_false_elim in Hb as [? _]. }
  change (format_text m (LBRACE :: (c :: k) ++ RBRACE :: rest))
    with (if c =? LBRACE
          then r ← format_text m (k ++ RBRACE :: rest); Ok (LBRACE :: r)
          else format_field m [] ((c :: k) ++ RBRACE :: rest)).
  rewrite Hl, format_field_plain by done.
  unfold lookup_field. cbn [app]. rewrite Hg. reflexivity.
Qed.

Lemma safe_format_pieces ps m rest :
  Forall piece_ok ps ->
  format_text m (template_of ps ++ rest) = r ← format_text m rest; Ok (instantiate m ps ++ r).
Proof.
  unfold template_of, instantiate. induction 1 as [|p ps Hp _ IH].
  - cbn. by destruct (format_text m rest).
  - rewrite !bind_cons, <- !app_assoc. destruct p as [s|k].
    + rewrite format_text_literal, IH.
      destruct (format_text m rest) as [r|e]; [|reflexivity].
      cbn [mbind result_bind]. by rewrite app_assoc.
    + cbn [app]. rewrite <- app_assoc. cbn [app].
      rewrite format_text_field, IH by done.
      destruct (format_text m rest) as [r|e]; [|reflexivity].
      cbn [mbind result_bind]. by rewrite app_assoc.
Qed.

(** C8, as the code has it.  For every template made of literal text
    (braces doubled) and placeholders whose key is a plain name, and every
    mapping, [safe_format] returns the text with each placeholder replaced
    by the mapping's value, and by the empty string when the key is absent;
    it does not raise.  Every key without a brace or one of [. [ : !] that
    starts with a character other than a digit is a plain name.  In
    particular [safe_format("Hi {name}", {})] is ["Hi "]. *)
Theorem safe_format_substitutes :
  (forall ps m,
      Forall piece_ok ps -> safe_format (template_of ps) m = Ok (instantiate m ps))
  /\ (forall k (m : row),
      plain_key k = true -> m !! k = None ->
      safe_format (template_of [Field k]) m = Ok [])
  /\ (forall c k,
      isdecimal c = false -> forallb plain_char (c :: k) = true ->
      plain_key (c :: k) = true)
  /\ safe_format (py "Hi {name}") ∅ = Ok (py "Hi ").
Proof.
  assert (forall ps m,
      Forall piece_ok ps -> safe_format (template_of ps) m = Ok (instantiate m ps)) as Hall.
  { intros ps m Hps. unfold safe_format.
    rewrite <- (app_nil_r (template_of ps)), safe_format_pieces by done.
    cbn. by rewrite app_nil_r. }
  split; [exact Hall|split; [|split; [|reflexivity]]].
  - intros k m Hk Hnone. rewrite Hall by (by repeat constructor).
    unfold instantiate. cbn. by rewrite Hnone.
  - intros c k Hc Hk. unfold plain_key. rewrite Hk. cbn [andb get_integer].
    unfold isdecimal in Hc. by destruct (todecimal c).
Qed.

(** A template that ends in a lone brace is refused, whatever the mapping. *)
Lemma safe_format_unbalanced ps m :
  Forall piece_ok ps ->
  safe_format (template_of ps ++ [LBRACE]) m
  = Raise (ValueError "Single '{' encountered in format string")
  /\ safe_format (template_of ps ++ [RBRACE]) m
     = Raise (ValueError "Single '}' encountered in format string").
Proof.
  intros Hps. unfold safe_format. rewrite !safe_format_pieces by done.
  split; reflexivity.
Qed.

(** Unbalanced braces in the subject or in the body are a rendering
    failure for every row. *)
Lemma unbalanced_subject_fails cfg ps r :
  Forall piece_ok ps -> subject_tpl cfg = template_of ps ++ [LBRACE] ->
  render_fails cfg r (ValueError "Single '{' encountered in format string").
Proof.
  intros Hps Ht. left. rewrite Ht. by apply safe_format_unbalanced.
Qed.

Lemma unbalanced_body_fails cfg ps r subject first :
  safe_format (subject_tpl cfg) r = Ok subject ->
  get_first_name (default [] (r !! py "name")) = Ok first ->
  Forall piece_ok ps -> body_tpl cfg = template_of ps ++ [RBRACE] ->
  render_fails cfg r (ValueError "Single '}' encountered in format string").
Proof.
  intros Hs Hf Hps Ht. right. exists subject, first. repeat split; [done..|].
  rewrite Ht. by apply safe_format_unbalanced.
Qed.

End Renderer.

Lemma safe_format_substitutes_witness :
  safe_format (H := sample_lib)
    (template_of [Lit (py "Dear "); Field (py "name"); Lit (py " {x}")])
    (mk_row "a@x.com" "Al")
  = Ok (py "Dear Al {x}").
Proof.
  apply (proj1 (@safe_format_substitutes sample_lib)).
  repeat constructor.
Defined.

(** C8 as stated fails: a placeholder is not always a key of the mapping.
    The placeholder "{0}" is a positional field, which [format_map]
    refuses even when the mapping has the key "0". *)
Lemma numeric_placeholder_raises :
  (<[py "0" := py "x"]> (∅ : row)) !! py "0" = Some (py "x")
  /\ safe_format (H := sample_lib) (py "{0}") (<[py "0" := py "x"]> ∅)
     = Raise (ValueError "Format string contains positional fields").
Proof. split; reflexivity. Qed.

(** A template that ends in a lone brace raises [ValueError] for every
    mapping. *)
Theorem lone_brace_is_refused `{PyLib} ps m :
  Forall piece_ok ps ->
  safe_format (template_of ps ++ [LBRACE]) m
  = Raise (ValueError "Single '{' encountered in format string")
  /\ safe_format (template_of ps ++ [RBRACE]) m
     = Raise (ValueError "Single '}' encountered in format string").
Proof. apply safe_format_unbalanced. Qed.

Lemma lone_brace_is_refused_witness :
  safe_format (H := sample_lib) (template_of [Lit (py "Hi "); Field (py "name")] ++ [LBRACE])
    (mk_row "a@x.com" "Al")
  = Raise (ValueError "Single '{' encountered in format string")
  /\ safe_format (H := sample_lib)
       (template_of [Lit (py "Hi "); Field (py "name")] ++ [RBRACE])
       (mk_row "a@x.com" "Al")
     = Raise (ValueError "Single '}' encountered in format string").
Proof.
  apply (@lone_brace_is_refused sample_lib). repeat constructor.
Defined.

(** ** The dispatch loop *)

Section DispatchFacts.

Context `{PyLib}.

Lemma render_fails_compose cfg r recip e :
  render_fails cfg r e -> compose cfg r recip = Raise e.
Proof.
  unfold compose. intros [Hs|(s & f & Hs & Hf & Hb)]; rewrite Hs; [reflexivity|].
  cbn [mbind result_bind]. rewrite Hf. cbn [mbind result_bind]. by rewrite Hb.
Qed.

(** A row whose texts render and encode is composed into its message. *)
Lemma compose_rendered cfg r recip subject first body :
  safe_format (subject_tpl cfg) r = Ok subject ->
  get_first_name (default [] (r !! py "name")) = Ok first ->
  safe_format (body_tpl cfg) (<[py "name" := first]> r) = Ok body ->
  utf8_encodable (from_name cfg) = true ->
  is_ascii (from_email cfg) = true ->
  utf8_encodable subject = true ->
  utf8_encodable (html_shell (text_to_html body)) = true ->
  compose cfg r recip
  = Ok {| msg_from := (from_name cfg, from_email cfg); msg_to := recip;
          msg_subject := subject; msg_html := html_shell (text_to_html body) |}.
Proof.
  intros Hs Hf Hb Hn He Hsub Hhtml. unfold compose.
  rewrite Hs. cbn [mbind result_bind]. rewrite Hf. cbn [mbind result_bind].
  rewrite Hb. cbn [mbind result_bind].
  unfold Header, formataddr, MIMEText. rewrite Hn. cbn [mbind result_bind snd].
  rewrite He. cbn [mbind result_bind]. rewrite Hsub. cbn [mbind result_bind].
  by rewrite Hhtml.
Qed.

Lemma clean_email_address_truthy raw addr :
  clean_email_address raw = Some addr -> truthy (Some addr) = true.
Proof.
  destruct raw as [[|c s]|]; cbn [clean_email_address]; try discriminate.
  destruct (contains_char AT _) eqn:E; [|discriminate].
  intros [= <-]. by destruct (snd _).
Qed.

Lemma clean_email_address_valid raw addr :
  raw <> [] -> snd (parseaddr (clean_value raw)) = addr ->
  contains_char AT addr = true ->
  clean_email_address (Some raw) = Some addr.
Proof.
  intros Hraw <- Hat. destruct raw; [done|].
  cbn [clean_email_address]. by rewrite Hat.
Qed.

Lemma attempts_app a b : attempts (a ++ b) = attempts a ++ attempts b.
Proof. apply omap_app. Qed.

Lemma attempted_rows_app a b : attempted_rows (a ++ b) = attempted_rows a ++ attempted_rows b.
Proof. unfold attempted_rows. by rewrite attempts_app, fmap_app. Qed.

Lemma sent_rows_app a b : sent_rows (a ++ b) = sent_rows a ++ sent_rows b.
Proof. apply omap_app. Qed.

Lemma beats_app a b : beats (a ++ b) = beats a ++ beats b.
Proof. apply omap_app. Qed.

(** What the end of a turn (lines 178-184) adds to it. *)
Lemma pacing_spec idx total b st tr :
  exists extra,
    pacing idx total b st tr
    = Next st (if EMAILS_PER_BATCH <=? b then 0 else b) (tr ++ extra)
    /\ attempts extra = [] /\ sent_rows extra = []
    /\ beats extra = (if EMAILS_PER_BATCH <=? b then [Cooldown] else []).
Proof.
  unfold pacing. destruct (EMAILS_PER_BATCH <=? b).
  - eexists. rewrite <- app_assoc. split; [reflexivity|]. by repeat split.
  - eexists. split; [reflexivity|]. by repeat split.
Qed.

Lemma iteration_stopped cfg world df total idx st b :
  stop_sending st = true ->
  iteration cfg world df total idx st b
  = Break [Notice Warning (py "Sending stopped. You can resume later.")].
Proof. unfold iteration. by intros ->. Qed.

Lemma iteration_skipped cfg world df total idx st b r :
  stop_sending st = false -> iloc df idx = Ok r ->
  clean_email_address (r !! py "email") = None ->
  iteration cfg world df total idx st b = Next st b [].
Proof. unfold iteration. by intros -> -> ->. Qed.

Lemma iteration_render_error cfg world df total idx st b r recip e :
  stop_sending st = false -> iloc df idx = Ok r ->
  clean_email_address (r !! py "email") = Some recip ->
  compose cfg r recip = Raise e ->
  iteration cfg world df total idx st b = Abort e.
Proof.
  unfold iteration. intros -> -> Hc Hm. rewrite Hc.
  by rewrite (clean_email_address_truthy _ _ Hc), Hm.
Qed.

Lemma iteration_sent cfg world df total idx st b r recip msg :
  stop_sending st = false -> iloc df idx = Ok r ->
  clean_email_address (r !! py "email") = Some recip ->
  compose cfg r recip = Ok msg -> smtp world idx msg = None ->
  iteration cfg world df total idx st b
  = pacing idx total (b + 1) (on_sent idx st)
      [Transport idx msg None; Notice Success (py "Sent to " ++ recip)].
Proof.
  unfold iteration. intros -> -> Hc Hm Hs. rewrite Hc.
  by rewrite (clean_email_address_truthy _ _ Hc), Hm, Hs.
Qed.

Lemma iteration_failed cfg world df total idx st b r recip msg descr :
  stop_sending st = false -> iloc df idx = Ok r ->
  clean_email_address (r !! py "email") = Some recip ->
  compose cfg r recip = Ok msg -> smtp world idx msg = Some descr ->
  iteration cfg world df total idx st b
  = pacing idx total b (on_failed r descr st)
      [Transport idx msg (Some descr); Notice Error (py "Failed: " ++ recip)].
Proof.
  unfold iteration. intros -> -> Hc Hm Hs. rewrite Hc.
  by rewrite (clean_email_address_truthy _ _ Hc), Hm, Hs.
Qed.

Lemma Next_inj st b tr st' b' tr' :
  Next st b tr = Next st' b' tr' -> st = st' /\ b = b' /\ tr = tr'.
Proof. by intros [= -> -> ->]. Qed.

(** The three ways a turn hands over to the next one. *)
Lemma iteration_next_inv cfg world df total idx st b st' b' tr :
  iteration cfg world df total idx st b = Next st' b' tr ->
  (st' = st /\ b' = b /\ tr = []
   /\ exists r, iloc df idx = Ok r /\ clean_email_address (r !! py "email") = None)
  \/ (exists r recip msg,
        iloc df idx = Ok r
        /\ clean_email_address (r !! py "email") = Some recip
        /\ compose cfg r recip = Ok msg
        /\ smtp world idx msg = None
        /\ st' = on_sent idx st
        /\ b' = (if EMAILS_PER_BATCH <=? b + 1 then 0 else b + 1)
        /\ attempts tr = [(idx, msg, None)]
        /\ sent_rows tr = [idx]
        /\ beats tr = Sent :: (if EMAILS_PER_BATCH <=? b + 1 then [Cooldown] else []))
  \/ (exists r recip msg descr,
        iloc df idx = Ok r
        /\ clean_email_address (r !! py "email") = Some recip
        /\ compose cfg r recip = Ok msg
        /\ smtp world idx msg = Some descr
        /\ st' = on_failed r descr st
        /\ b' = (if EMAILS_PER_BATCH <=? b then 0 else b)
        /\ attempts tr = [(idx, msg, Some descr)]
        /\ sent_rows tr = []
        /\ beats tr = (if EMAILS_PER_BATCH <=? b then [Cooldown] else [])).
Proof.
  unfold iteration. destruct (stop_sending st); [discriminate|].
  destruct (iloc df idx) as [r|]; [|discriminate].
  destruct (clean_email_address (r !! py "email")) as [recip|] eqn:Hc.
  2:{ intros [= <- <- <-]. left. eauto 10. }
  rewrite (clean_email_address_truthy _ _ Hc). cbn [negb].
  destruct (compose cfg r recip) as [msg|] eqn:Hm; [|discriminate].
  destruct (smtp world idx msg) as [descr|] eqn:Hs.
  - destruct (pacing_spec idx total b (on_failed r descr st)
      [Transport idx msg (Some descr); Notice Error (py "Failed: " ++ recip)])
      as (extra & -> & Ha & Hr & Hb).
    intros Heq. apply Next_inj in Heq as (<- & <- & <-).
    right. right. exists r, recip, msg, descr.
    rewrite attempts_app, sent_rows_app, beats_app, Ha, Hr, Hb. by repeat split.
  - destruct (pacing_spec idx total (b + 1) (on_sent idx st)
      [Transport idx msg None; Notice Success (py "Sent to " ++ recip)])
      as (extra & -> & Ha & Hr & Hb).
    intros Heq. apply Next_inj in Heq as (<- & <- & <-).
    right. left. exists r, recip, msg.
    rewrite attempts_app, sent_rows_app, beats_app, Ha, Hr, Hb. by repeat split.
Qed.

Lemma iteration_break_inv cfg world df total idx st b tr :
  iteration cfg world df total idx st b = Break tr ->
  stop_sending st = true /\ attempts tr = [] /\ sent_rows tr = [] /\ beats tr = [].
Proof.
  unfold iteration. destruct (stop_sending st).
  - by intros [= <-].
  - destruct (iloc df idx) as [r|]; [|discriminate].
    destruct (clean_email_address (r !! py "email")) as [recip|]; [|discriminate].
    destruct (negb (truthy (Some recip))); [discriminate|].
    destruct (compose cfg r recip) as [msg|]; [|discriminate].
    unfold pacing.
    destruct (smtp world idx msg);
      match goal with |- context [if ?c then _ else _] => destruct c end;
      discriminate.
Qed.

End DispatchFacts.

Section RunFacts.

Context `{PyLib}.
Variable cfg : config.
Variable world : env.
Variable df : list row.
Variable total : Z.

Lemma poll_last_sent_index idx st :
  last_sent_index (poll world idx st) = last_sent_index st.
Proof. unfold poll. by destruct (stop_pressed world idx). Qed.

Lemma poll_sent_count idx st : sent_count (poll world idx st) = sent_count st.
Proof. unfold poll. by destruct (stop_pressed world idx). Qed.

Lemma poll_failed_rows idx st : failed_rows (poll world idx st) = failed_rows st.
Proof. unfold poll. by destruct (stop_pressed world idx). Qed.

Lemma attempted_rows_of_attempts tr idx msg res :
  attempts tr = [(idx, msg, res)] -> attempted_rows tr = [idx].
Proof. unfold attempted_rows. by intros ->. Qed.

(** The rows a pass attempts are rows of its range, in the order of the
    range, each at most once. *)
Lemma run_attempted_sublist idxs st b :
  attempted_rows (trace (run cfg world df total idxs st b)) `sublist_of` idxs.
Proof.
  revert st b. induction idxs as [|idx rest IH]; intros st b; cbn [run].
  - constructor.
  - destruct (iteration _ _ _ _ _ _ _) as [tr|st' b' tr|e] eqn:Hit; cbn [trace after].
    + apply iteration_break_inv in Hit as (_ & Ha & _).
      unfold attempted_rows. rewrite Ha. apply sublist_nil_l.
    + rewrite attempted_rows_app.
      apply iteration_next_inv in Hit
        as [(_ & _ & -> & _)|[(r & recip & msg & _ & _ & _ & _ & _ & _ & Ha & _)
           |(r & recip & msg & d & _ & _ & _ & _ & _ & _ & Ha & _)]].
      * apply sublist_cons, IH.
      * rewrite (attempted_rows_of_attempts _ _ _ _ Ha). apply sublist_skip, IH.
      * rewrite (attempted_rows_of_attempts _ _ _ _ Ha). apply sublist_skip, IH.
    + apply sublist_nil_l.
Qed.

(** Every transport call of a pass carries the message composed from the
    row at its index, and its recorded outcome is the transport's. *)
Lemma run_attempt_inv idxs st b idx msg res :
  (idx, msg, res) ∈ attempts (trace (run cfg world df total idxs st b)) ->
  exists r recip,
    iloc df idx = Ok r
    /\ clean_email_address (r !! py "email") = Some recip
    /\ compose cfg r recip = Ok msg
    /\ smtp world idx msg = res.
Proof.
  revert st b. induction idxs as [|i rest IH]; intros st b; cbn [run].
  - cbn. by intros ?%elem_of_nil.
  - destruct (iteration _ _ _ _ _ _ _) as [tr|st' b' tr|e] eqn:Hit; cbn [trace after].
    + apply iteration_break_inv in Hit as (_ & -> & _). by intros ?%elem_of_nil.
    + rewrite attempts_app, elem_of_app.
      apply iteration_next_inv in Hit
        as [(_ & _ & -> & _)|[(r & recip & m & Hr & Hc & Hm & Hs & _ & _ & -> & _)
           |(r & recip & m & d & Hr & Hc & Hm & Hs & _ & _ & -> & _)]].
      * intros [?%elem_of_nil|Hin]; [done|]. by eapply IH.
      * intros [Heq%list_elem_of_singleton|Hin]; [|by eapply IH].
        injection Heq as -> -> ->. eauto 10.
      * intros [Heq%list_elem_of_singleton|Hin]; [|by eapply IH].
        injection Heq as -> -> ->. eauto 10.
    + by intros ?%elem_of_nil.
Qed.

Lemma last_cons_default {A} (x : A) (l : list A) d :
  default d (last (x :: l)) = default x (last l).
Proof.
  revert x d. induction l as [|y l IH]; intros x d; [done|].
  change (last (x :: y :: l)) with (last (y :: l)).
  by rewrite (IH y d), (IH y x).
Qed.

(** After a pass the cursor is the last row it sent, or where it was. *)
Lemma run_last_sent_index idxs st b :
  let p := run cfg world df total idxs st b in
  last_sent_index (final p) = default (last_sent_index st) (last (sent_rows (trace p))).
Proof.
  revert st b. induction idxs as [|idx rest IH]; intros st b; cbn [run]; [done|].
  destruct (iteration _ _ _ _ _ _ _) as [tr|st' b' tr|e] eqn:Hit; cbn [trace final after].
  - apply iteration_break_inv in Hit as (_ & _ & -> & _).
    apply poll_last_sent_index.
  - rewrite sent_rows_app. cbv zeta in IH. rewrite IH.
    apply iteration_next_inv in Hit
      as [(-> & _ & -> & _)|[(r & recip & m & _ & _ & _ & _ & -> & _ & _ & -> & _)
         |(r & recip & m & d & _ & _ & _ & _ & -> & _ & _ & -> & _)]].
    + by rewrite poll_last_sent_index.
    + cbn [app on_sent last_sent_index]. by rewrite last_cons_default.
    + cbn [app on_failed last_sent_index]. by rewrite poll_last_sent_index.
  - apply poll_last_sent_index.
Qed.

(** The counter grows by the number of accepted sends. *)
Lemma run_sent_count idxs st b :
  let p := run cfg world df total idxs st b in
  sent_count (final p) = sent_count st + Z.of_nat (length (sent_rows (trace p))).
Proof.
  revert st b. induction idxs as [|idx rest IH]; intros st b; cbn [run].
  - cbn. lia.
  - destruct (iteration _ _ _ _ _ _ _) as [tr|st' b' tr|e] eqn:Hit; cbn [trace final after].
    + apply iteration_break_inv in Hit as (_ & _ & -> & _).
      rewrite poll_sent_count. cbn. lia.
    + rewrite sent_rows_app, length_app. cbv zeta in IH. rewrite IH.
      apply iteration_next_inv in Hit
        as [(-> & _ & -> & _)|[(r & recip & m & _ & _ & _ & _ & -> & _ & _ & -> & _)
           |(r & recip & m & d & _ & _ & _ & _ & -> & _ & _ & -> & _)]].
      * rewrite poll_sent_count. change (length (sent_rows [])) with 0%nat. lia.
      * cbn [on_sent sent_count length]. rewrite poll_sent_count. lia.
      * cbn [on_failed sent_count length]. rewrite poll_sent_count. lia.
    + rewrite poll_sent_count. cbn. lia.
Qed.

(** Cooldowns fall exactly after every fifth accepted send of the pass,
    whatever failed or was skipped in between. *)
Lemma run_cadence idxs st b :
  0 <= b < EMAILS_PER_BATCH ->
  let p := run cfg world df total idxs st b in
  beats (trace p) = cadence b (length (sent_rows (trace p))).
Proof.
  revert st b. induction idxs as [|idx rest IH]; intros st b Hb; cbn [run]; [done|].
  destruct (iteration _ _ _ _ _ _ _) as [tr|st' b' tr|e] eqn:Hit; cbn [trace after]; [| |done].
  - by apply iteration_break_inv in Hit as (_ & _ & -> & ->).
  - rewrite sent_rows_app, beats_app, length_app.
    apply iteration_next_inv in Hit
      as [(-> & -> & -> & _)|[(r & recip & m & _ & _ & _ & _ & -> & -> & _ & -> & ->)
         |(r & recip & m & d & _ & _ & _ & _ & -> & -> & _ & -> & ->)]].
    + by apply IH.
    + cbn [length Nat.add cadence].
      destruct (Z.leb_spec EMAILS_PER_BATCH (b + 1)).
      * cbn [app]. f_equal. f_equal. apply IH. unfold EMAILS_PER_BATCH. lia.
      * cbn [app]. f_equal. apply IH. lia.
    + destruct (Z.leb_spec EMAILS_PER_BATCH b); [lia|]. by apply IH.
Qed.

(** A pass that completes attempts every row of its range that has a valid
    address. *)
Lemma run_completed_attempts idxs st b :
  how (run cfg world df total idxs st b) = Completed ->
  (forall idx, idx ∈ idxs ->
     exists r, iloc df idx = Ok r /\ clean_email_address (r !! py "email") <> None) ->
  attempted_rows (trace (run cfg world df total idxs st b)) = idxs.
Proof.
  revert st b. induction idxs as [|idx rest IH]; intros st b; cbn [run]; [done|].
  destruct (iteration _ _ _ _ _ _ _) as [tr|st' b' tr|e] eqn:Hit; cbn [trace how after];
    [discriminate| |discriminate].
  intros Hhow Hvalid. rewrite attempted_rows_app.
  rewrite IH by (done || intros i Hi; apply Hvalid; by right).
  apply iteration_next_inv in Hit
    as [(_ & _ & _ & r & Hr & Hc)|[(r & recip & m & _ & _ & _ & _ & _ & _ & Ha & _)
       |(r & recip & m & d & _ & _ & _ & _ & _ & _ & Ha & _)]].
  - destruct (Hvalid idx) as (r' & Hr' & Hc'); [by left|]. congruence.
  - by rewrite (attempted_rows_of_attempts _ _ _ _ Ha).
  - by rewrite (attempted_rows_of_attempts _ _ _ _ Ha).
Qed.

End RunFacts.

(** ** One run of the script *)

Section ScriptFacts.

Context `{PyLib}.

Lemma pass_eta (p : pass) : {| how := how p; final := final p; trace := trace p |} = p.
Proof. by destruct p. Qed.

Lemma script_no_retry cfg world b df st :
  retry_btn b = false ->
  script cfg world b df st = execution cfg world b df (handlers b st).
Proof.
  intros Hb. unfold script, retry_failed. rewrite Hb.
  set (first := execution cfg world b df (handlers b st)).
  assert (forall s, match failed_rows s with [] => idle s | _ :: _ => idle s end = idle s)
    as -> by (intros s; by destruct (failed_rows s)).
  cbn [idle how final trace]. rewrite app_nil_r.
  destruct first as [[| |e] f t]; reflexivity.
Qed.

Lemma script_retry cfg world df st :
  failed_rows st <> [] ->
  script cfg world press_retry df st
  = send_bulk cfg world (failed_rows st) false (on_retry st).
Proof.
  intros Hf. unfold script.
  assert (execution cfg world press_retry df (handlers press_retry st) = idle st) as ->.
  { unfold execution, handlers. cbn. by destruct df. }
  cbn [idle how final trace app]. unfold retry_failed.
  destruct (failed_rows st) as [|r l] eqn:E; [done|].
  cbn [press_retry retry_btn]. rewrite <- E.
  destruct (send_bulk _ _ _ _ _) as [[| |e] f t]; reflexivity.
Qed.

Lemma iloc_nonneg (df : list row) idx r :
  0 <= idx -> iloc df idx = Ok r -> df !! Z.to_nat idx = Some r.
Proof.
  unfold iloc. intros Hidx.
  destruct (Z.ltb_spec idx 0); [lia|].
  destruct (_ && _); [|discriminate].
  destruct (df !! Z.to_nat idx); [|discriminate]. by intros [= ->].
Qed.

Lemma iloc_in_range (df : list row) idx :
  0 <= idx < Z.of_nat (length df) -> exists r, iloc df idx = Ok r /\ r ∈ df.
Proof.
  intros Hidx. unfold iloc.
  destruct (Z.ltb_spec idx 0); [lia|].
  destruct (Z.leb_spec 0 idx); [|lia].
  destruct (Z.ltb_spec idx (Z.of_nat (length df))); [|lia]. cbn [andb].
  destruct (df !! Z.to_nat idx) as [r|] eqn:E.
  - exists r. split; [done|]. by eapply list_elem_of_lookup_2.
  - apply lookup_ge_None in E. lia.
Qed.

Lemma after_nil p : after [] p = p.
Proof. unfold after. cbn [app]. apply pass_eta. Qed.

Lemma poll_quiet world idx st : stop_pressed world idx = false -> poll world idx st = st.
Proof. unfold poll. by intros ->. Qed.

(** The pass over [idx :: rest], by what happens at [idx]. *)
Lemma run_cons_skipped cfg world df total idx rest st b r :
  stop_sending (poll world idx st) = false -> iloc df idx = Ok r ->
  clean_email_address (r !! py "email") = None ->
  run cfg world df total (idx :: rest) st b
  = run cfg world df total rest (poll world idx st) b.
Proof.
  intros Hs Hr Hc. cbn [run]. erewrite iteration_skipped by done. apply after_nil.
Qed.

Lemma run_cons_sent cfg world df total idx rest st b r recip msg :
  stop_sending (poll world idx st) = false -> iloc df idx = Ok r ->
  clean_email_address (r !! py "email") = Some recip ->
  compose cfg r recip = Ok msg -> smtp world idx msg = None ->
  b + 1 < EMAILS_PER_BATCH ->
  run cfg world df total (idx :: rest) st b
  = after [Transport idx msg None; Notice Success (py "Sent to " ++ recip);
           Progress (idx + 1) total; Sleep DELAY_BETWEEN_EMAILS]
      (run cfg world df total rest (on_sent idx (poll world idx st)) (b + 1)).
Proof.
  intros Hs Hr Hc Hm Ht Hb. cbn [run].
  erewrite iteration_sent by done. unfold pacing.
  by destruct (Z.leb_spec EMAILS_PER_BATCH (b + 1)); [lia|].
Qed.

Lemma run_cons_failed cfg world df total idx rest st b r recip msg descr :
  stop_sending (poll world idx st) = false -> iloc df idx = Ok r ->
  clean_email_address (r !! py "email") = Some recip ->
  compose cfg r recip = Ok msg -> smtp world idx msg = Some descr ->
  b < EMAILS_PER_BATCH ->
  run cfg world df total (idx :: rest) st b
  = after [Transport idx msg (Some descr); Notice Error (py "Failed: " ++ recip);
           Progress (idx + 1) total; Sleep DELAY_BETWEEN_EMAILS]
      (run cfg world df total rest (on_failed r descr (poll world idx st)) b).
Proof.
  intros Hs Hr Hc Hm Ht Hb. cbn [run].
  erewrite iteration_failed by done. unfold pacing.
  by destruct (Z.leb_spec EMAILS_PER_BATCH b); [lia|].
Qed.

(** C7. [clean_email_address] returns [None] for a missing or empty input
    and whenever the address part that [parseaddr] extracts from the
    cleaned string has no "@".  A row whose address is [None] is passed
    over: its turn of the loop makes no transport call and leaves the
    session state and the batch counter as they were (or, when the stop
    flag is set, ends the pass without touching either), and no pass ever
    contains a transport call for it. *)
Theorem invalid_address_is_skipped cfg world :
  clean_email_address None = None
  /\ clean_email_address (Some []) = None
  /\ (forall raw,
        contains_char AT (snd (parseaddr (clean_value raw))) = false ->
        clean_email_address (Some raw) = None)
  /\ (forall df total idx st b r,
        iloc df idx = Ok r -> clean_email_address (r !! py "email") = None ->
        iteration cfg world df total idx st b = Next st b []
        \/ (stop_sending st = true
            /\ iteration cfg world df total idx st b
               = Break [Notice Warning (py "Sending stopped. You can resume later.")]))
  /\ (forall df total idx rest st b r,
        iloc df idx = Ok r -> clean_email_address (r !! py "email") = None ->
        stop_sending (poll world idx st) = false ->
        run cfg world df total (idx :: rest) st b
        = run cfg world df total rest (poll world idx st) b)
  /\ (forall df total idxs st b idx r,
        iloc df idx = Ok r -> clean_email_address (r !! py "email") = None ->
        idx ∉ attempted_rows (trace (run cfg world df total idxs st b))).
Proof.
  split; [reflexivity|]. split; [reflexivity|]. split; [|split; [|split]].
  - intros [|c s] Hat; [reflexivity|]. cbn [clean_email_address]. by rewrite Hat.
  - intros df total idx st b r Hr Hc. destruct (stop_sending st) eqn:Hs.
    + right. split; [done|]. by apply iteration_stopped.
    + left. by eapply iteration_skipped.
  - intros df total idx rest st b r Hr Hc Hs. by eapply run_cons_skipped.
  - intros df total idxs st b idx r Hr Hc Hin.
    unfold attempted_rows in Hin.
    apply list_elem_of_fmap in Hin as ([[i m] res] & -> & Hin).
    apply run_attempt_inv in Hin as (r' & recip & Hr' & Hc' & _).
    cbn [fst] in Hr. congruence.
Qed.

(** C4. When the transport raises on a row, the loop records the row with
    the error description at the end of [failed_rows], leaves [sent_count]
    and [last_sent_index] as they were, and goes on with the remaining
    rows: the pass is the failed turn followed by the pass over the rest. *)
Theorem transport_failure_is_recorded cfg world df total idx rest st b r recip msg descr :
  stop_sending (poll world idx st) = false ->
  iloc df idx = Ok r ->
  clean_email_address (r !! py "email") = Some recip ->
  compose cfg r recip = Ok msg ->
  smtp world idx msg = Some descr ->
  exists b' tr,
    let st' := on_failed r descr (poll world idx st) in
    iteration cfg world df total idx (poll world idx st) b = Next st' b' tr
    /\ attempts tr = [(idx, msg, Some descr)]
    /\ failed_rows st' = failed_rows st ++ [<[py "__error" := descr]> r]
    /\ sent_count st' = sent_count st
    /\ last_sent_index st' = last_sent_index st
    /\ run cfg world df total (idx :: rest) st b
       = after tr (run cfg world df total rest st' b').
Proof.
  intros Hs Hr Hc Hm Ht.
  pose proof (iteration_failed cfg world df total idx _ b r recip msg descr Hs Hr Hc Hm Ht)
    as Hit.
  destruct (pacing_spec idx total b (on_failed r descr (poll world idx st))
              [Transport idx msg (Some descr); Notice Error (py "Failed: " ++ recip)])
    as (extra & Hp & Ha & _).
  rewrite Hp in Hit. eexists _, _. cbv zeta. split; [exact Hit|].
  split; [by rewrite attempts_app, Ha|].
  cbn [on_failed failed_rows sent_count last_sent_index].
  rewrite poll_failed_rows, poll_sent_count, poll_last_sent_index.
  repeat split. cbn [run]. by rewrite Hit.
Qed.

(** C2, as the code has it.  Rendering is not inside the [try]: when the
    subject or the body of a row that reaches rendering cannot be rendered,
    the exception leaves the loop.  The pass ends there with that
    exception, nothing is added to [failed_rows], and neither this row nor
    a later one reaches the transport. *)
Theorem template_error_ends_the_pass cfg world df total idx rest st b r recip e :
  stop_sending (poll world idx st) = false ->
  iloc df idx = Ok r ->
  clean_email_address (r !! py "email") = Some recip ->
  render_fails cfg r e ->
  run cfg world df total (idx :: rest) st b
  = {| how := Uncaught e; final := poll world idx st; trace := [] |}
  /\ failed_rows (poll world idx st) = failed_rows st.
Proof.
  intros Hs Hr Hc He. split; [|apply poll_failed_rows].
  cbn [run]. erewrite iteration_render_error; eauto using render_fails_compose.
Qed.

End ScriptFacts.

Section PassFacts.

Context `{PyLib}.

(** C5, as the code has it.  The batch counter counts the accepted sends
    of the invocation and is not reset by a failure or a skipped row: the
    cooldown pause comes exactly after every fifth accepted send, before
    the next one, whether or not the five were consecutive rows; a turn
    that pauses hands the counter on as 0. *)
Theorem cooldown_after_every_fifth_send cfg world :
  (forall df resume st,
      let p := send_bulk cfg world df resume st in
      beats (trace p) = cadence 0 (length (sent_rows (trace p))))
  /\ (forall df total idx st b st' b' tr,
        iteration cfg world df total idx st b = Next st' b' tr ->
        0 <= b < EMAILS_PER_BATCH ->
        (Cooldown ∈ beats tr <-> sent_rows tr = [idx] /\ b + 1 = EMAILS_PER_BATCH)
        /\ (Cooldown ∈ beats tr -> b' = 0)).
Proof.
  split.
  - intros df resume st. apply run_cadence. unfold EMAILS_PER_BATCH. lia.
  - intros df total idx st b st' b' tr Hit Hb.
    apply iteration_next_inv in Hit
      as [(_ & _ & -> & _)|[(r & recip & m & _ & _ & _ & _ & _ & -> & _ & -> & ->)
         |(r & recip & m & d & _ & _ & _ & _ & _ & -> & _ & -> & ->)]].
    + cbn. split; [split|]; [by intros ?%elem_of_nil|by intros [? _]|by intros ?%elem_of_nil].
    + destruct (Z.leb_spec EMAILS_PER_BATCH (b + 1)).
      * split; [split|done]; [intros _; split; [done|lia]|].
        intros _. apply elem_of_cons. right. by apply list_elem_of_singleton.
      * split; [split|]; [|intros [_ ?]; lia|];
          intros [?|?%elem_of_nil]%elem_of_cons; done.
    + destruct (Z.leb_spec EMAILS_PER_BATCH b); [lia|].
      split; [split|]; [by intros ?%elem_of_nil|by intros [? _]|by intros ?%elem_of_nil].
Qed.

(** Resume starts the loop right after the cursor, whatever state it is
    invoked in. *)
Lemma resume_range cfg world df st :
  let total := Z.of_nat (length df) in
  let k := last_sent_index st in
  script cfg world press_resume (Some df) st
  = run cfg world df total (seqZ (k + 1) (total - (k + 1))) (on_resume st) 0.
Proof. cbv zeta. by rewrite script_no_retry. Qed.

(** C3. After a pass that halted on the stop flag with [last_sent_index]
    equal to [k], Resume over the same table runs the loop over the rows
    from [k + 1] on: the rows it attempts are rows of that range, in order,
    and none of them has an index at or below [k]. *)
Theorem resume_continues_after_cursor cfg world1 world2 b1 df st0 k :
  let p1 := script cfg world1 b1 (Some df) st0 in
  how p1 = Stopped ->
  last_sent_index (final p1) = k ->
  let total := Z.of_nat (length df) in
  let p2 := script cfg world2 press_resume (Some df) (final p1) in
  p2 = run cfg world2 df total (seqZ (k + 1) (total - (k + 1))) (on_resume (final p1)) 0
  /\ attempted_rows (trace p2) `sublist_of` seqZ (k + 1) (total - (k + 1))
  /\ (forall idx, idx ∈ attempted_rows (trace p2) -> k < idx).
Proof.
  intros p1 _ Hk total p2.
  assert (p2 = run cfg world2 df total (seqZ (k + 1) (total - (k + 1)))
                 (on_resume (final p1)) 0) as Hp2.
  { subst p2 k. apply resume_range. }
  split; [exact Hp2|]. rewrite Hp2.
  pose proof (run_attempted_sublist cfg world2 df total
                (seqZ (k + 1) (total - (k + 1))) (on_resume (final p1)) 0) as Hsub.
  split; [exact Hsub|].
  intros idx Hin. eapply elem_of_sublist in Hin; [|exact Hsub].
  apply elem_of_seqZ in Hin. lia.
Qed.

(** C6, as the code has it.  Retry is offered while [failed_rows] is not
    empty.  It runs the loop over the rows recorded at that moment: every
    transport call is for the row at its position in that list, positions
    are visited in order and at most once, and a pass that completes over
    rows with valid addresses attempts every one of them.  The handler sets
    [last_sent_index] to -1 before the pass, so afterwards the cursor is a
    position in the list of failed rows (the last one sent) or -1, not a
    position in the recipient table. *)
Theorem retry_runs_over_failed_rows cfg world df st :
  failed_rows st <> [] ->
  let failed := failed_rows st in
  let p := script cfg world press_retry df st in
  attempted_rows (trace p) `sublist_of` seqZ 0 (Z.of_nat (length failed))
  /\ (forall idx msg res,
        (idx, msg, res) ∈ attempts (trace p) ->
        exists r recip,
          failed !! Z.to_nat idx = Some r
          /\ clean_email_address (r !! py "email") = Some recip
          /\ compose cfg r recip = Ok msg)
  /\ (how p = Completed ->
      (forall r, r ∈ failed -> clean_email_address (r !! py "email") <> None) ->
      attempted_rows (trace p) = seqZ 0 (Z.of_nat (length failed)))
  /\ last_sent_index (final p) = default (-1) (last (sent_rows (trace p))).
Proof.
  intros Hf failed p. subst p. rewrite script_retry by done.
  unfold send_bulk, start_index. rewrite Z.sub_0_r. fold failed.
  split; [apply run_attempted_sublist|]. split; [|split].
  - intros idx msg res Hin.
    assert (0 <= idx) as Hidx.
    { assert (idx ∈ attempted_rows (trace (run cfg world failed (Z.of_nat (length failed))
               (seqZ 0 (Z.of_nat (length failed))) (on_retry st) 0))) as Hrow.
      { unfold attempted_rows. apply list_elem_of_fmap. by exists (idx, msg, res). }
      eapply elem_of_sublist in Hrow; [|apply run_attempted_sublist].
      apply elem_of_seqZ in Hrow. lia. }
    apply run_attempt_inv in Hin as (r & recip & Hr & Hc & Hm & _).
    exists r, recip. eauto using iloc_nonneg.
  - intros Hhow Hvalid. apply run_completed_attempts; [done|].
    intros idx Hidx%elem_of_seqZ.
    destruct (iloc_in_range failed idx) as (r & Hr & Hin); [lia|]. eauto.
  - by rewrite run_last_sent_index.
Qed.

End PassFacts.

(** ** Bookkeeping of a pass *)

(** After [send_bulk] the cursor is the index of the last row the pass
    sent, or what it was when the pass sent none. *)
Theorem send_bulk_cursor `{PyLib} cfg world df resume st :
  let p := send_bulk cfg world df resume st in
  last_sent_index (final p) = default (last_sent_index st) (last (sent_rows (trace p))).
Proof. apply run_last_sent_index. Qed.

(** [send_bulk] adds to [sent_count] the number of rows the pass sent. *)
Theorem send_bulk_sent_count `{PyLib} cfg world df resume st :
  let p := send_bulk cfg world df resume st in
  sent_count (final p) = sent_count st + Z.of_nat (length (sent_rows (trace p))).
Proof. apply run_sent_count. Qed.

(** ** The end-to-end scenario *)

Section EndToEnd.

Context `{PyLib}.

(** C1, as the code has it.  Over the three-row table with subject
    "Hi {name}" and body "Hello {name}", a fresh Send whose transport calls
    all succeed skips row 1 and makes exactly two transport calls, for rows
    0 and 2.  The subject is rendered from the row as it is
    ("Hi Al Pha", "Hi Ga Ma"); only the body is rendered with the name
    replaced by the first name ("Hello Al", "Hello Ga").  The pass ends with
    [sent_count] 2, [last_sent_index] 2 and no failed rows.  The sender's
    address is ASCII and the sender's name has a UTF-8 encoding: line 158
    raises otherwise, before anything is sent. *)
Theorem end_to_end world st fe pw fn :
  let cfg := {| from_email := fe; app_password := pw; from_name := fn;
                subject_tpl := py "Hi {name}"; body_tpl := py "Hello {name}" |} in
  snd (parseaddr (py "a@x.com")) = py "a@x.com" ->
  contains_char AT (snd (parseaddr (py "bad"))) = false ->
  snd (parseaddr (py "c@x.com")) = py "c@x.com" ->
  is_ascii fe = true ->
  utf8_encodable fn = true ->
  (forall idx m, smtp world idx m = None) ->
  (forall idx, stop_pressed world idx = false) ->
  let p := script cfg world press_send (Some table3) st in
  how p = Completed
  /\ attempts (trace p)
     = [(0, letter cfg "a@x.com" "Hi Al Pha" "Hello Al", None);
        (2, letter cfg "c@x.com" "Hi Ga Ma" "Hello Ga", None)]
  /\ sent_count (final p) = 2
  /\ last_sent_index (final p) = 2
  /\ failed_rows (final p) = [].
Proof.
  intros cfg Ha Hbad Hc Hfe Hfn Hsmtp Hstop p. subst p.
  rewrite script_no_retry by reflexivity.
  unfold execution, handlers, send_bulk, start_index.
  cbn [press_send send_btn stop_btn resume_btn orb].
  change (resume_mode (on_send st)) with false. cbv iota.
  change (seqZ 0 (Z.of_nat (length table3) - 0)) with [0; 1; 2].
  set (total := Z.of_nat (length table3)).
  assert (clean_email_address (mk_row "a@x.com" "Al Pha" !! py "email")
          = Some (py "a@x.com")) as Ca.
  { apply (clean_email_address_valid (py "a@x.com")); [done|exact Ha|reflexivity]. }
  assert (clean_email_address (mk_row "bad" "Be Ta" !! py "email") = None) as Cb.
  { change (mk_row "bad" "Be Ta" !! py "email") with (Some (py "bad")).
    change (py "bad") with (98 :: py "ad")%N. cbn [clean_email_address].
    change (clean_value (98 :: py "ad")%N) with (py "bad"). by rewrite Hbad. }
  assert (clean_email_address (mk_row "c@x.com" "Ga Ma" !! py "email")
          = Some (py "c@x.com")) as Cc.
  { apply (clean_email_address_valid (py "c@x.com")); [done|exact Hc|reflexivity]. }
  rewrite (run_cons_sent cfg world table3 total 0 [1; 2] (on_send st) 0
             (mk_row "a@x.com" "Al Pha") (py "a@x.com")
             (letter cfg "a@x.com" "Hi Al Pha" "Hello Al"));
    [|by rewrite poll_quiet|reflexivity|exact Ca
     |by apply (compose_rendered cfg _ _ (py "Hi Al Pha") (py "Al") (py "Hello Al"))
     |apply Hsmtp|reflexivity].
  rewrite (run_cons_skipped cfg world table3 total 1 [2] _ _ (mk_row "bad" "Be Ta"));
    [|by rewrite !poll_quiet|reflexivity|exact Cb].
  rewrite (run_cons_sent cfg world table3 total 2 [] _ _
             (mk_row "c@x.com" "Ga Ma") (py "c@x.com")
             (letter cfg "c@x.com" "Hi Ga Ma" "Hello Ga"));
    [|by rewrite !poll_quiet|reflexivity|exact Cc
     |by apply (compose_rendered cfg _ _ (py "Hi Ga Ma") (py "Ga") (py "Hello Ga"))
     |apply Hsmtp|reflexivity].
  rewrite !poll_quiet by done.
  repeat split.
Qed.

End EndToEnd.

(** ** Concrete runs *)

Lemma end_to_end_witness :
  let cfg := cfg_hi "Hi {name}" "Hello {name}" in
  let p := script (H := sample_lib) cfg always_ok press_send (Some table3) defaults in
  how p = Completed
  /\ attempts (trace p)
     = [(0, letter cfg "a@x.com" "Hi Al Pha" "Hello Al", None);
        (2, letter cfg "c@x.com" "Hi Ga Ma" "Hello Ga", None)]
  /\ sent_count (final p) = 2
  /\ last_sent_index (final p) = 2
  /\ failed_rows (final p) = [].
Proof.
  apply (@end_to_end sample_lib always_ok defaults
           (py "me@gmail.com") (py "secret") (py "Team")); reflexivity.
Defined.

(** C1 as stated fails: the two subjects carry the full names. *)
Lemma end_to_end_subjects :
  subjects (trace (script (H := sample_lib) (cfg_hi "Hi {name}" "Hello {name}")
                     always_ok press_send (Some table3) defaults))
  = [py "Hi Al Pha"; py "Hi Ga Ma"]
  /\ py "Hi Al Pha" <> py "Hi Al".
Proof. split; [reflexivity|discriminate]. Qed.

Lemma template_error_ends_the_pass_witness :
  run (H := sample_lib) (cfg_hi "Hi {" "Hello") always_ok table3 3 [0; 1; 2] defaults 0
  = {| how := Uncaught (ValueError "Single '{' encountered in format string");
       final := poll always_ok 0 defaults; trace := [] |}
  /\ failed_rows (poll always_ok 0 defaults) = failed_rows defaults.
Proof.
  apply (@template_error_ends_the_pass sample_lib (cfg_hi "Hi {" "Hello") always_ok
           table3 3 0 [1; 2] defaults 0 (mk_row "a@x.com" "Al Pha") (py "a@x.com")).
  - reflexivity.
  - reflexivity.
  - reflexivity.
  - apply (unbalanced_subject_fails (H := sample_lib) _ [Lit (py "Hi ")]).
    + repeat constructor.
    + reflexivity.
Defined.

(** C2 as stated fails: with an unbalanced subject template a fresh Send
    ends at the first row with the exception; no row is recorded in
    [failed_rows] and nothing reaches the transport. *)
Lemma template_error_not_recorded :
  let p := script (H := sample_lib) (cfg_hi "Hi {name" "Hello") always_ok press_send
             (Some table3) defaults in
  how p = Uncaught (ValueError "expected '}' before end of string")
  /\ failed_rows (final p) = []
  /\ attempts (trace p) = [].
Proof. repeat split. Qed.

Lemma resume_continues_after_cursor_witness :
  let cfg := cfg_hi "Hi {name}" "Hello {name}" in
  let p1 := script (H := sample_lib) cfg (stop_at 1) press_send (Some table3) defaults in
  let p2 := script (H := sample_lib) cfg always_ok press_resume (Some table3) (final p1) in
  p2 = run (H := sample_lib) cfg always_ok table3 3 (seqZ (0 + 1) (3 - (0 + 1)))
         (on_resume (final p1)) 0
  /\ attempted_rows (trace p2) `sublist_of` seqZ (0 + 1) (3 - (0 + 1))
  /\ (forall idx, idx ∈ attempted_rows (trace p2) -> 0 < idx).
Proof.
  apply (@resume_continues_after_cursor sample_lib (cfg_hi "Hi {name}" "Hello {name}")
           (stop_at 1) always_ok press_send table3 defaults 0); reflexivity.
Defined.

Lemma transport_failure_is_recorded_witness :
  let cfg := cfg_hi "Hi {name}" "Hello {name}" in
  let world := failing_at 0 "authentication failed" in
  let r := mk_row "a@x.com" "Al Pha" in
  exists b' tr,
    let st' := on_failed r (py "authentication failed") (poll world 0 defaults) in
    iteration (H := sample_lib) cfg world table3 3 0 (poll world 0 defaults) 0
    = Next st' b' tr
    /\ attempts tr
       = [(0, letter cfg "a@x.com" "Hi Al Pha" "Hello Al", Some (py "authentication failed"))]
    /\ failed_rows st'
       = failed_rows defaults ++ [<[py "__error" := py "authentication failed"]> r]
    /\ sent_count st' = sent_count defaults
    /\ last_sent_index st' = last_sent_index defaults
    /\ run (H := sample_lib) cfg world table3 3 [0; 1; 2] defaults 0
       = after tr (run (H := sample_lib) cfg world table3 3 [1; 2] st' b').
Proof.
  apply (@transport_failure_is_recorded sample_lib (cfg_hi "Hi {name}" "Hello {name}")
           (failing_at 0 "authentication failed") table3 3 0 [1; 2] defaults 0
           (mk_row "a@x.com" "Al Pha") (py "a@x.com")); reflexivity.
Defined.

(** C5 as stated fails: row 2 is refused, so the five accepted sends are
    not consecutive, and the cooldown still follows the fifth of them. *)
Lemma cooldown_without_five_in_a_row :
  let p := script (H := sample_lib) (cfg_hi "Hi {name}" "Hello {name}")
             (failing_at 2 "rejected") press_send (Some table6) defaults in
  attempted_rows (trace p) = [0; 1; 2; 3; 4; 5]
  /\ sent_rows (trace p) = [0; 1; 3; 4; 5]
  /\ beats (trace p) = [Sent; Sent; Sent; Sent; Sent; Cooldown].
Proof. repeat split. Qed.

Lemma retry_runs_over_failed_rows_witness :
  let cfg := cfg_hi "Hi {name}" "Hello {name}" in
  let failed := failed_rows after_send in
  let p := script (H := sample_lib) cfg always_ok press_retry (Some table_abc) after_send in
  attempted_rows (trace p) `sublist_of` seqZ 0 (Z.of_nat (length failed))
  /\ (forall idx msg res,
        (idx, msg, res) ∈ attempts (trace p) ->
        exists r recip,
          failed !! Z.to_nat idx = Some r
          /\ clean_email_address (H := sample_lib) (r !! py "email") = Some recip
          /\ compose (H := sample_lib) cfg r recip = Ok msg)
  /\ (how p = Completed ->
      (forall r, r ∈ failed ->
         clean_email_address (H := sample_lib) (r !! py "email") <> None) ->
      attempted_rows (trace p) = seqZ 0 (Z.of_nat (length failed)))
  /\ last_sent_index (final p) = default (-1) (last (sent_rows (trace p))).
Proof.
  apply (@retry_runs_over_failed_rows sample_lib (cfg_hi "Hi {name}" "Hello {name}")
           always_ok (Some table_abc) after_send).
  discriminate.
Defined.

(** C6 as stated fails: after the Send the cursor stands at row 2 of the
    recipient table and row 1 is the one failed row; after Retry the cursor
    is 0, the position of the retried row in the list of failed rows, or -1
    when the retry fails again. *)
Lemma retry_resets_cursor :
  last_sent_index after_send = 2
  /\ failed_rows after_send
     = [<[py "__error" := py "rejected"]> (mk_row "b@x.com" "Be Ta")]
  /\ last_sent_index
       (final (script (H := sample_lib) (cfg_hi "Hi {name}" "Hello {name}")
                 always_ok press_retry (Some table_abc) after_send)) = 0
  /\ last_sent_index
       (final (script (H := sample_lib) (cfg_hi "Hi {name}" "Hello {name}")
                 (failing_at 0 "rejected") press_retry (Some table_abc) after_send)) = -1.
Proof. repeat split. Qed.

Lemma invalid_address_is_skipped_witness :
  let cfg := cfg_hi "Hi {name}" "Hello {name}" in
  iteration (H := sample_lib) cfg always_ok table3 3 1 defaults 0 = Next defaults 0 []
  \/ (stop_sending defaults = true
      /\ iteration (H := sample_lib) cfg always_ok table3 3 1 defaults 0
         = Break [Notice Warning (py "Sending stopped. You can resume later.")]).
Proof.
  apply (proj1 (proj2 (proj2 (proj2
           (@invalid_address_is_skipped sample_lib
              (cfg_hi "Hi {name}" "Hello {name}") always_ok)))))
    with (r := mk_row "bad" "Be Ta"); reflexivity.
Defined.

Lemma cooldown_after_every_fifth_send_witness :
  exists st' b' tr,
    iteration (H := sample_lib) (cfg_hi "Hi {name}" "Hello {name}") always_ok
      table6 6 4 defaults 4 = Next st' b' tr
    /\ (Cooldown ∈ beats tr <-> sent_rows tr = [4] /\ 4 + 1 = EMAILS_PER_BATCH)
    /\ (Cooldown ∈ beats tr -> b' = 0).
Proof.
  eexists _, _, _. split; [reflexivity|].
  eapply (proj2 (@cooldown_after_every_fifth_send sample_lib
                   (cfg_hi "Hi {name}" "Hello {name}") always_ok)
            table6 6 4 defaults 4).
  - reflexivity.
  - unfold EMAILS_PER_BATCH. lia.
Defined.

Lemma text_to_html_correct_witness : tag_second 98.
Proof.
  apply (proj1 (proj2 (proj2 (proj2 (proj2 (proj2 text_to_html_correct))))))
    with (text := py "a" ++ [LF] ++ py "b").
  reflexivity.
Defined.

(** * Further facts *)

(** ** More about one turn of the loop *)

Section TurnFacts.

Context `{PyLib}.

Lemma slept_app a b : slept (a ++ b) = slept a + slept b.
Proof.
  induction a as [|ev a IH]; [done|].
  cbn [app slept]. destruct ev; rewrite IH; lia.
Qed.

Lemma omap_cons_match {A B} (f : A -> option B) x l :
  omap f (x :: l) = match f x with Some y => y :: omap f l | None => omap f l end.
Proof. reflexivity. Qed.

Lemma failure_records_app df a b :
  failure_records df (a ++ b) = failure_records df a ++ failure_records df b.
Proof. apply omap_app. Qed.

Lemma pacing_more df idx total b st tr :
  exists extra,
    pacing idx total b st tr
    = Next st (if EMAILS_PER_BATCH <=? b then 0 else b) (tr ++ extra)
    /\ attempts extra = [] /\ sent_rows extra = []
    /\ failure_records df extra = []
    /\ slept extra
       = DELAY_BETWEEN_EMAILS + (if EMAILS_PER_BATCH <=? b then BATCH_COOLDOWN else 0).
Proof.
  unfold pacing. destruct (EMAILS_PER_BATCH <=? b).
  - eexists. rewrite <- app_assoc. split; [reflexivity|]. by repeat split.
  - eexists. split; [reflexivity|]. by repeat split.
Qed.

Lemma iteration_running cfg world df total idx st b st' b' tr :
  iteration cfg world df total idx st b = Next st' b' tr -> stop_sending st = false.
Proof.
  destruct (stop_sending st) eqn:Hs; [|done].
  by rewrite iteration_stopped.
Qed.

(** What a turn that hands over adds to the books. *)
Lemma iteration_next_more cfg world df total idx st b st' b' tr :
  iteration cfg world df total idx st b = Next st' b' tr ->
  (st' = st /\ b' = b /\ tr = [])
  \/ (exists msg,
        st' = on_sent idx st
        /\ b' = (if EMAILS_PER_BATCH <=? b + 1 then 0 else b + 1)
        /\ attempts tr = [(idx, msg, None)]
        /\ sent_rows tr = [idx]
        /\ failure_records df tr = []
        /\ slept tr
           = DELAY_BETWEEN_EMAILS
             + (if EMAILS_PER_BATCH <=? b + 1 then BATCH_COOLDOWN else 0))
  \/ (exists r msg descr,
        iloc df idx = Ok r
        /\ st' = on_failed r descr st
        /\ b' = (if EMAILS_PER_BATCH <=? b then 0 else b)
        /\ attempts tr = [(idx, msg, Some descr)]
        /\ sent_rows tr = []
        /\ failure_records df tr = [<[py "__error" := descr]> r]
        /\ slept tr
           = DELAY_BETWEEN_EMAILS + (if EMAILS_PER_BATCH <=? b then BATCH_COOLDOWN else 0)).
Proof.
  intros Hit. pose proof (iteration_running _ _ _ _ _ _ _ _ _ _ Hit) as Hs.
  pose proof Hit as Hinv.
  apply iteration_next_inv in Hinv
    as [(-> & -> & -> & _)|[(r & recip & msg & Hr & Hc & Hm & Ht & _)
       |(r & recip & msg & d & Hr & Hc & Hm & Ht & _)]].
  - by left.
  - rewrite (iteration_sent cfg world df total idx st b r recip msg Hs Hr Hc Hm Ht) in Hit.
    destruct (pacing_more df idx total (b + 1) (on_sent idx st)
                [Transport idx msg None; Notice Success (py "Sent to " ++ recip)])
      as (extra & Hp & Ha & Hsr & Hf & Hsl).
    rewrite Hp in Hit. apply Next_inj in Hit as (<- & <- & <-).
    right. left. exists msg.
    rewrite attempts_app, sent_rows_app, failure_records_app, slept_app, Ha, Hsr, Hf, Hsl.
    by repeat split.
  - rewrite (iteration_failed cfg world df total idx st b r recip msg d Hs Hr Hc Hm Ht) in Hit.
    destruct (pacing_more df idx total b (on_failed r d st)
                [Transport idx msg (Some d); Notice Error (py "Failed: " ++ recip)])
      as (extra & Hp & Ha & Hsr & Hf & Hsl).
    rewrite Hp in Hit. apply Next_inj in Hit as (<- & <- & <-).
    assert (failure_records df
              [Transport idx msg (Some d); Notice Error (py "Failed: " ++ recip)]
            = [<[py "__error" := d]> r]) as Hrec.
    { unfold failure_records. rewrite omap_cons_match, Hr. reflexivity. }
    right. right. exists r, msg, d.
    rewrite attempts_app, sent_rows_app, failure_records_app, slept_app, Ha, Hsr, Hf, Hsl.
    rewrite Hrec. by repeat split.
Qed.

Lemma iteration_abort_inv cfg world df total idx st b e :
  iteration cfg world df total idx st b = Abort e ->
  iloc df idx = Raise e
  \/ exists r recip,
       iloc df idx = Ok r
       /\ clean_email_address (r !! py "email") = Some recip
       /\ compose cfg r recip = Raise e.
Proof.
  unfold iteration. destruct (stop_sending st); [discriminate|].
  destruct (iloc df idx) as [r|e']; [|intros [= ->]; by left].
  destruct (clean_email_address (r !! py "email")) as [recip|] eqn:Hc; [|discriminate].
  rewrite (clean_email_address_truthy _ _ Hc). cbn [negb].
  destruct (compose cfg r recip) as [msg|e'] eqn:Hm.
  - unfold pacing.
    destruct (smtp world idx msg);
      match goal with |- context [if ?c then _ else _] => destruct c end;
      discriminate.
  - intros [= ->]. right. eauto.
Qed.

Lemma iteration_break_trace cfg world df total idx st b tr :
  iteration cfg world df total idx st b = Break tr ->
  tr = [Notice Warning (py "Sending stopped. You can resume later.")].
Proof.
  intros Hit. pose proof Hit as Hs. apply iteration_break_inv in Hs as (Hs & _).
  rewrite iteration_stopped in Hit by done. by injection Hit as <-.
Qed.

End TurnFacts.

(** ** More about a pass *)

Section MoreRunFacts.

Context `{PyLib}.
Variable cfg : config.
Variable world : env.
Variable df : list row.
Variable total : Z.

Lemma run_failed_rows idxs st b :
  let p := run cfg world df total idxs st b in
  failed_rows (final p) = failed_rows st ++ failure_records df (trace p).
Proof.
  revert st b. induction idxs as [|idx rest IH]; intros st b; cbn [run].
  - cbn. by rewrite app_nil_r.
  - destruct (iteration _ _ _ _ _ _ _) as [tr|st' b' tr|e] eqn:Hit; cbn [trace final after].
    + apply iteration_break_trace in Hit as ->.
      cbn. by rewrite app_nil_r, poll_failed_rows.
    + rewrite failure_records_app. cbv zeta in IH. rewrite IH.
      apply iteration_next_more in Hit
        as [(-> & _ & ->)|[(msg & -> & _ & _ & _ & -> & _)
           |(r & msg & d & _ & -> & _ & _ & _ & -> & _)]].
      * by rewrite poll_failed_rows.
      * cbn [on_sent failed_rows app]. by rewrite poll_failed_rows.
      * cbn [on_failed failed_rows]. by rewrite poll_failed_rows, <- app_assoc.
    + cbn. by rewrite app_nil_r, poll_failed_rows.
Qed.

Lemma run_slept idxs st b :
  0 <= b < EMAILS_PER_BATCH ->
  let p := run cfg world df total idxs st b in
  slept (trace p)
  = DELAY_BETWEEN_EMAILS * Z.of_nat (length (attempts (trace p)))
    + BATCH_COOLDOWN * ((b + Z.of_nat (length (sent_rows (trace p)))) / EMAILS_PER_BATCH).
Proof.
  unfold EMAILS_PER_BATCH, DELAY_BETWEEN_EMAILS, BATCH_COOLDOWN.
  revert st b. induction idxs as [|idx rest IH]; intros st b Hb; cbn [run].
  - cbn. rewrite Z.add_0_r, Z.div_small by lia. lia.
  - destruct (iteration _ _ _ _ _ _ _) as [tr|st' b' tr|e] eqn:Hit; cbn [trace after].
    + apply iteration_break_trace in Hit as ->.
      cbn. rewrite Z.add_0_r, Z.div_small by lia. lia.
    + rewrite slept_app, attempts_app, sent_rows_app, !length_app, !Nat2Z.inj_add.
      apply iteration_next_more in Hit
        as [(-> & -> & ->)|[(msg & -> & -> & -> & -> & _ & ->)
           |(r & msg & d & _ & -> & -> & -> & -> & _ & ->)]];
        unfold EMAILS_PER_BATCH, DELAY_BETWEEN_EMAILS, BATCH_COOLDOWN.
      * cbv zeta in IH. rewrite IH by done.
        change (length (attempts [])) with 0%nat.
        change (length (sent_rows [])) with 0%nat.
        change (Z.of_nat 0) with 0. rewrite !Z.add_0_l. reflexivity.
      * cbn [length]. destruct (Z.leb_spec 5 (b + 1)).
        -- assert (b = 4) as -> by lia. cbv zeta in IH. rewrite IH by lia.
           replace (4 + (Z.of_nat 1 + Z.of_nat (length (sent_rows
                     (trace (run cfg world df total rest (on_sent idx (poll world idx st)) 0))))))
             with (1 * 5 + (0 + Z.of_nat (length (sent_rows
                     (trace (run cfg world df total rest (on_sent idx (poll world idx st)) 0))))))
             by lia.
           rewrite Z.div_add_l by lia. lia.
        -- cbv zeta in IH. rewrite IH by lia.
           replace (b + (Z.of_nat 1 + Z.of_nat (length (sent_rows
                     (trace (run cfg world df total rest (on_sent idx (poll world idx st)) (b + 1)))))))
             with (b + 1 + Z.of_nat (length (sent_rows
                     (trace (run cfg world df total rest (on_sent idx (poll world idx st)) (b + 1))))))
             by lia.
           lia.
      * cbn [length]. destruct (Z.leb_spec 5 b); [lia|].
        cbv zeta in IH. rewrite IH by lia. rewrite Z.add_0_l. lia.
    + cbn. rewrite Z.add_0_r, Z.div_small by lia. lia.
Qed.

Lemma poll_pressed idx st :
  stop_pressed world idx = true -> stop_sending (poll world idx st) = true.
Proof. unfold poll. by intros ->. Qed.

Lemma run_until_stop idxs st b :
  attempted_rows (trace (run cfg world df total idxs st b))
    `sublist_of` until_stop world idxs.
Proof.
  revert st b. induction idxs as [|idx rest IH]; intros st b; cbn [run until_stop].
  - constructor.
  - destruct (stop_pressed world idx) eqn:Hp.
    + rewrite iteration_stopped by by apply poll_pressed. apply sublist_nil_l.
    + destruct (iteration _ _ _ _ _ _ _) as [tr|st' b' tr|e] eqn:Hit; cbn [trace after].
      * apply iteration_break_trace in Hit as ->. apply sublist_nil_l.
      * rewrite attempted_rows_app.
        apply iteration_next_more in Hit
          as [(_ & _ & ->)|[(msg & _ & _ & Ha & _)|(r & msg & d & _ & _ & _ & Ha & _)]].
        -- apply sublist_cons, IH.
        -- rewrite (attempted_rows_of_attempts _ _ _ _ Ha). apply sublist_skip, IH.
        -- rewrite (attempted_rows_of_attempts _ _ _ _ Ha). apply sublist_skip, IH.
      * apply sublist_nil_l.
Qed.

Lemma until_stop_seqZ len m j :
  j ∈ until_stop world (seqZ m (Z.of_nat len)) ->
  m <= j /\ forall i, m <= i <= j -> stop_pressed world i = false.
Proof.
  revert m. induction len as [|len IH]; intros m.
  - cbn. by intros ?%elem_of_nil.
  - rewrite seqZ_cons by lia. cbn [until_stop].
    destruct (stop_pressed world m) eqn:Hm; [by intros ?%elem_of_nil|].
    replace (Z.pred (Z.of_nat (S len))) with (Z.of_nat len) by lia.
    intros [->|Hin]%elem_of_cons.
    + split; [lia|]. intros i Hi. by replace i with m by lia.
    + apply IH in Hin as [Hj Hall]. split; [lia|].
      intros i Hi. destruct (decide (i = m)) as [->|]; [done|]. apply Hall. lia.
Qed.

(** A pass halts on the stop flag only if the flag was set when it began or
    Stop is pressed at one of its rows. *)
Lemma run_stopped_inv idxs st b :
  how (run cfg world df total idxs st b) = Stopped ->
  stop_sending st = true \/ exists idx, idx ∈ idxs /\ stop_pressed world idx = true.
Proof.
  revert st b. induction idxs as [|idx rest IH]; intros st b; cbn [run]; [done|].
  destruct (stop_sending st) eqn:Hst; [by left|]. intros Hhow. right.
  destruct (stop_pressed world idx) eqn:Hp; [exists idx; split; [by left|done]|].
  rewrite (poll_quiet _ _ _ Hp) in Hhow.
  destruct (iteration _ _ _ _ _ _ _) as [tr|st' b' tr|e] eqn:Hit; cbn [how after] in Hhow.
  - apply iteration_break_inv in Hit as (? & _). congruence.
  - apply IH in Hhow as [Hs|(i & Hi & Hpi)].
    + apply iteration_next_more in Hit
        as [(-> & _)|[(msg & -> & _)|(r & msg & d & _ & -> & _)]];
        cbn in Hs; congruence.
    + exists i. split; [by right|done].
  - discriminate.
Qed.

(** An exception leaves a pass only from indexing the table or from
    composing the message of a row with a valid address. *)
Lemma run_uncaught_inv idxs st b e :
  how (run cfg world df total idxs st b) = Uncaught e ->
  exists idx,
    idx ∈ idxs
    /\ (iloc df idx = Raise e
        \/ exists r recip,
             iloc df idx = Ok r
             /\ clean_email_address (r !! py "email") = Some recip
             /\ compose cfg r recip = Raise e).
Proof.
  revert st b. induction idxs as [|idx rest IH]; intros st b; cbn [run]; [done|].
  destruct (iteration _ _ _ _ _ _ _) as [tr|st' b' tr|e'] eqn:Hit; cbn [how after].
  - discriminate.
  - intros (i & Hi & Hcase)%IH. exists i. split; [by right|done].
  - intros [= ->]. exists idx. split; [by left|]. by eapply iteration_abort_inv.
Qed.

Lemma sent_rows_attempted (tr : list event) idx :
  idx ∈ sent_rows tr -> idx ∈ attempted_rows tr.
Proof.
  unfold sent_rows, attempted_rows, attempts.
  intros (ev & Hin & Hev)%list_elem_of_omap.
  destruct ev as [i m [d|]| | |]; try discriminate. injection Hev as ->.
  apply list_elem_of_fmap. exists (idx, m, None). split; [done|].
  apply list_elem_of_omap. by exists (Transport idx m None).
Qed.

End MoreRunFacts.

(** ** Stop, cursor and books of a pass *)

Section PassTheorems.

Context `{PyLib}.

Lemma handlers_clear_stop b st :
  send_btn b || resume_btn b = true -> stop_sending (handlers b st) = false.
Proof.
  unfold handlers. destruct (resume_btn b); [done|].
  rewrite orb_false_r. by intros ->.
Qed.

Lemma clean_email_address_at raw addr :
  clean_email_address raw = Some addr -> contains_char AT addr = true.
Proof.
  destruct raw as [[|c s]|]; cbn [clean_email_address]; try discriminate.
  destruct (contains_char AT _) eqn:E; [|discriminate]. by intros [= <-].
Qed.

Lemma compose_ok_inv cfg r recip msg :
  compose cfg r recip = Ok msg ->
  exists subject first body,
    safe_format (subject_tpl cfg) r = Ok subject
    /\ get_first_name (default [] (r !! py "name")) = Ok first
    /\ safe_format (body_tpl cfg) (<[py "name" := first]> r) = Ok body
    /\ utf8_encodable (from_name cfg) = true
    /\ is_ascii (from_email cfg) = true
    /\ msg = {| msg_from := (from_name cfg, from_email cfg); msg_to := recip;
                msg_subject := subject; msg_html := html_shell (text_to_html body) |}.
Proof.
  unfold compose.
  destruct (safe_format (subject_tpl cfg) r) as [subject|] eqn:Hs; [|discriminate].
  cbn [mbind result_bind].
  destruct (get_first_name _) as [first|] eqn:Hf; [|discriminate].
  cbn [mbind result_bind].
  destruct (safe_format (body_tpl cfg) _) as [body|] eqn:Hb; [|discriminate].
  cbn [mbind result_bind]. unfold Header, formataddr, MIMEText.
  destruct (utf8_encodable (from_name cfg)) eqn:Hn; [|discriminate].
  cbn [mbind result_bind snd].
  destruct (is_ascii (from_email cfg)) eqn:He; [|discriminate].
  cbn [mbind result_bind].
  destruct (utf8_encodable subject); [|discriminate]. cbn [mbind result_bind].
  destruct (utf8_encodable (html_shell _)); [|discriminate]. cbn [mbind result_bind].
  intros [= <-]. by exists subject, first, body.
Qed.

(** What [compose] raises comes from rendering, from reading the first
    name, or from encoding the headers and the body. *)
Lemma compose_raise_inv cfg r recip e :
  compose cfg r recip = Raise e ->
  render_fails cfg r e
  \/ get_first_name (default [] (r !! py "name")) = Raise e
  \/ exists codec, e = UnicodeEncodeError codec.
Proof.
  unfold compose.
  destruct (safe_format (subject_tpl cfg) r) as [subject|e1] eqn:Hs.
  2:{ intros [= ->]. left. by left. }
  cbn [mbind result_bind].
  destruct (get_first_name _) as [first|e2] eqn:Hf.
  2:{ intros [= ->]. right. by left. }
  cbn [mbind result_bind].
  destruct (safe_format (body_tpl cfg) _) as [body|e3] eqn:Hb.
  2:{ cbn [mbind result_bind]. intros [= ->]. left. right. by exists subject, first. }
  cbn [mbind result_bind]. unfold Header, formataddr, MIMEText.
  destruct (utf8_encodable (from_name cfg)); cbn [mbind result_bind snd];
    [|intros [= <-]; right; right; by eexists].
  destruct (is_ascii (from_email cfg)); cbn [mbind result_bind];
    [|intros [= <-]; right; right; by eexists].
  destruct (utf8_encodable subject); cbn [mbind result_bind];
    [|intros [= <-]; right; right; by eexists].
  destruct (utf8_encodable (html_shell _)); cbn [mbind result_bind];
    [discriminate|intros [= <-]; right; right; by eexists].
Qed.

Lemma send_bulk_range cfg world df resume st j :
  j ∈ attempted_rows (trace (send_bulk cfg world df resume st)) ->
  start_index resume st <= j < Z.of_nat (length df).
Proof.
  intros Hj. eapply elem_of_sublist in Hj; [|apply run_attempted_sublist].
  apply elem_of_seqZ in Hj. lia.
Qed.

(** Once Stop is pressed before row [i], the pass attempts no row from [i]
    on. *)
Theorem stop_halts_before_later_rows cfg world df resume st i j :
  stop_pressed world i = true ->
  start_index resume st <= i ->
  j ∈ attempted_rows (trace (send_bulk cfg world df resume st)) ->
  j < i.
Proof.
  intros Hi Hstart Hj. unfold send_bulk in Hj.
  eapply elem_of_sublist in Hj; [|apply run_until_stop].
  set (n := Z.of_nat (length df) - start_index resume st) in *.
  destruct (Z.le_gt_cases n 0) as [Hn|Hn].
  - rewrite seqZ_nil in Hj by done. by apply elem_of_nil in Hj.
  - rewrite <- (Z2Nat.id n) in Hj by lia.
    apply until_stop_seqZ in Hj as [_ Hall].
    destruct (Z.lt_ge_cases j i) as [|Hge]; [done|].
    rewrite Hall in Hi by lia. discriminate.
Qed.

(** Send and Resume clear an earlier stop request: their pass ends as
    stopped only when Stop is pressed at one of its rows, from the row it
    starts at to the last row of the table. *)
Theorem stopped_only_by_a_press cfg world b df st :
  retry_btn b = false ->
  send_btn b || resume_btn b = true ->
  how (script cfg world b (Some df) st) = Stopped ->
  exists idx,
    start_index (resume_mode (handlers b st)) (handlers b st) <= idx
      < Z.of_nat (length df)
    /\ stop_pressed world idx = true.
Proof.
  intros Hr Hb. rewrite script_no_retry by done.
  unfold execution. rewrite Hb. unfold send_bulk.
  intros [Hs|(idx & Hin & Hp)]%run_stopped_inv.
  - by rewrite handlers_clear_stop in Hs.
  - exists idx. split; [|done]. apply elem_of_seqZ in Hin. lia.
Qed.

Lemma send_bulk_cursor_cases cfg world df resume st :
  let p := send_bulk cfg world df resume st in
  last_sent_index (final p) = last_sent_index st
  \/ start_index resume st <= last_sent_index (final p) < Z.of_nat (length df).
Proof.
  cbv zeta.
  assert (last_sent_index (final (send_bulk cfg world df resume st))
          = default (last_sent_index st)
              (last (sent_rows (trace (send_bulk cfg world df resume st))))) as ->
    by apply run_last_sent_index.
  destruct (last (sent_rows (trace (send_bulk cfg world df resume st)))) as [j|] eqn:Hl;
    [|by left].
  right. cbn [default]. apply last_Some_elem_of, sent_rows_attempted in Hl.
  by apply send_bulk_range in Hl.
Qed.

(** After a fresh Send over a table the cursor is -1 or the index of a row
    of that table. *)
Theorem send_leaves_cursor_in_table cfg world df st :
  let p := script cfg world press_send (Some df) st in
  -1 <= last_sent_index (final p) < Z.of_nat (length df).
Proof.
  cbv zeta. rewrite script_no_retry by done.
  change (execution cfg world press_send (Some df) (handlers press_send st))
    with (send_bulk cfg world df false (on_send st)).
  destruct (send_bulk_cursor_cases cfg world df false (on_send st)) as [->|Hc].
  - cbn. lia.
  - cbn [start_index] in Hc. lia.
Qed.

(** Resume never moves the cursor back, and moves it only to a row of the
    table. *)
Theorem resume_moves_cursor_forward cfg world df st :
  let p := script cfg world press_resume (Some df) st in
  last_sent_index (final p) = last_sent_index st
  \/ last_sent_index st < last_sent_index (final p) < Z.of_nat (length df).
Proof.
  cbv zeta. rewrite script_no_retry by done.
  change (execution cfg world press_resume (Some df) (handlers press_resume st))
    with (send_bulk cfg world df true (on_resume st)).
  destruct (send_bulk_cursor_cases cfg world df true (on_resume st)) as [->|Hc].
  - by left.
  - right. cbn [start_index on_resume last_sent_index] in Hc. lia.
Qed.

Lemma run_failure_count cfg world df total idxs st b :
  let p := run cfg world df total idxs st b in
  (length (failure_records df (trace p)) + length (sent_rows (trace p))
   = length (attempts (trace p)))%nat.
Proof.
  revert st b. induction idxs as [|idx rest IH]; intros st b; cbn [run]; [done|].
  destruct (iteration _ _ _ _ _ _ _) as [tr|st' b' tr|e] eqn:Hit; cbn [trace after];
    [|cbv zeta in IH|done].
  - by apply iteration_break_trace in Hit as ->.
  - rewrite failure_records_app, sent_rows_app, attempts_app, !length_app.
    specialize (IH st' b').
    apply iteration_next_more in Hit
      as [(_ & _ & ->)|[(msg & _ & _ & -> & -> & -> & _)
         |(r & msg & d & _ & _ & _ & -> & -> & -> & _)]];
      change (failure_records df []) with (@nil row);
      change (sent_rows []) with (@nil Z);
      change (attempts []) with (@nil (Z * message * option pystr));
      cbn [length] in *; lia.
Qed.

(** A pass appends to [failed_rows] one record for each transport call that
    raised, in the order of the calls: the row at that index with [__error]
    set to the description.  Nothing is removed or rewritten, and every call
    either counts as sent or leaves a record. *)
Theorem send_bulk_failed_rows cfg world df resume st :
  let p := send_bulk cfg world df resume st in
  failed_rows (final p) = failed_rows st ++ failure_records df (trace p)
  /\ (length (failure_records df (trace p)) + length (sent_rows (trace p))
      = length (attempts (trace p)))%nat.
Proof. split; [apply run_failed_rows|apply run_failure_count]. Qed.

(** Retry does not clear [failed_rows] and does not reset [sent_count]: the
    rows it retries stay listed, a row that fails again is listed once more,
    and the count goes on from where it was. *)
Theorem retry_accumulates cfg world df st :
  failed_rows st <> [] ->
  let p := script cfg world press_retry df st in
  failed_rows (final p)
  = failed_rows st ++ failure_records (failed_rows st) (trace p)
  /\ sent_count (final p) = sent_count st + Z.of_nat (length (sent_rows (trace p))).
Proof.
  intros Hf. cbv zeta. rewrite script_retry by done. split.
  - unfold send_bulk. by rewrite run_failed_rows.
  - unfold send_bulk. by rewrite run_sent_count.
Qed.

(** A fresh Send forgets the session it starts from: its result is the
    same from every state, [sent_count] is the number of rows it sent and
    [failed_rows] holds the records of this pass only. *)
Theorem send_starts_afresh cfg world df st :
  let p := script cfg world press_send (Some df) st in
  (forall st', script cfg world press_send (Some df) st' = p)
  /\ sent_count (final p) = Z.of_nat (length (sent_rows (trace p)))
  /\ failed_rows (final p) = failure_records df (trace p).
Proof.
  cbv zeta. rewrite !script_no_retry by done.
  change (execution cfg world press_send (Some df) (handlers press_send st))
    with (send_bulk cfg world df false (on_send st)).
  split; [|split].
  - intros st'. by rewrite script_no_retry.
  - unfold send_bulk. by rewrite run_sent_count.
  - unfold send_bulk. by rewrite run_failed_rows.
Qed.

(** Every transport call of a pass is addressed to the cleaned address of
    its row, which contains an "@", comes from the configured sender, and
    is recorded with the outcome the transport gave. *)
Theorem every_call_has_an_address cfg world df resume st idx msg res :
  (idx, msg, res) ∈ attempts (trace (send_bulk cfg world df resume st)) ->
  exists r,
    iloc df idx = Ok r
    /\ clean_email_address (r !! py "email") = Some (msg_to msg)
    /\ contains_char AT (msg_to msg) = true
    /\ msg_from msg = (from_name cfg, from_email cfg)
    /\ smtp world idx msg = res.
Proof.
  intros (r & recip & Hr & Hc & Hm & Hs)%run_attempt_inv.
  apply compose_ok_inv in Hm as (subject & first & body & _ & _ & _ & _ & _ & ->).
  exists r. cbn [msg_to msg_from]. repeat split; try done.
  by eapply clean_email_address_at.
Qed.

(** The time a pass spends asleep: the fixed delay after every transport
    call, and the cooldown once for every five rows sent. *)
Theorem send_bulk_pause_time cfg world df resume st :
  let p := send_bulk cfg world df resume st in
  slept (trace p)
  = DELAY_BETWEEN_EMAILS * Z.of_nat (length (attempts (trace p)))
    + BATCH_COOLDOWN * (Z.of_nat (length (sent_rows (trace p))) / EMAILS_PER_BATCH).
Proof.
  cbv zeta. unfold send_bulk. rewrite run_slept by (unfold EMAILS_PER_BATCH; lia).
  by rewrite Z.add_0_l.
Qed.

Lemma send_bulk_uncaught_inv cfg world df resume st e :
  resume = false \/ -1 <= last_sent_index st ->
  how (send_bulk cfg world df resume st) = Uncaught e ->
  exists idx r recip,
    df !! Z.to_nat idx = Some r /\ 0 <= idx < Z.of_nat (length df)
    /\ clean_email_address (r !! py "email") = Some recip
    /\ compose cfg r recip = Raise e.
Proof.
  intros Hstart (idx & Hin & Hcase)%run_uncaught_inv.
  apply elem_of_seqZ in Hin.
  assert (0 <= idx < Z.of_nat (length df)) as Hidx.
  { unfold start_index in Hin. destruct Hstart as [->|?]; [lia|].
    destruct resume; lia. }
  destruct (iloc_in_range df idx Hidx) as (r & Hr & _).
  destruct Hcase as [Hraise|(r' & recip & Hr' & Hc & Hm)]; [congruence|].
  exists idx, r', recip. repeat split; try done; try lia.
  apply iloc_nonneg; [lia|done].
Qed.

(** From a pass that starts at or after row 0 an exception escapes only
    while the message of a row with a valid address is composed, that is
    rendered and assembled (lines 142-161): indexing the table never
    raises, and what the transport raises is caught. *)
Theorem only_composing_raises cfg world df resume st e :
  resume = false \/ -1 <= last_sent_index st ->
  how (send_bulk cfg world df resume st) = Uncaught e ->
  exists idx r recip,
    df !! Z.to_nat idx = Some r /\ 0 <= idx < Z.of_nat (length df)
    /\ clean_email_address (r !! py "email") = Some recip
    /\ compose cfg r recip = Raise e.
Proof. apply send_bulk_uncaught_inv. Qed.

(** With a sender address that is not ASCII, or a sender name that has no
    UTF-8 encoding, no pass hands a message to the transport: line 158
    raises before the session of line 164 is opened. *)
Theorem bad_sender_sends_nothing cfg world df resume st :
  is_ascii (from_email cfg) && utf8_encodable (from_name cfg) = false ->
  let p := send_bulk cfg world df resume st in
  attempts (trace p) = []
  /\ sent_count (final p) = sent_count st
  /\ failed_rows (final p) = failed_rows st.
Proof.
  intros Hbad. cbv zeta. unfold send_bulk.
  set (total := Z.of_nat (length df)).
  set (idxs := seqZ (start_index resume st) (total - start_index resume st)).
  set (p := run cfg world df total idxs st 0).
  assert (attempts (trace p) = []) as Hnone.
  { destruct (attempts (trace p)) as [|[[idx msg] res] l] eqn:Ha; [done|]. exfalso.
    assert ((idx, msg, res) ∈ attempts (trace p)) as Hin by (rewrite Ha; by left).
    apply run_attempt_inv in Hin as (r & recip & _ & _ & Hm & _).
    apply compose_ok_inv in Hm as (? & ? & ? & _ & _ & _ & Hn & He & _).
    by rewrite Hn, He in Hbad. }
  pose proof (run_failed_rows cfg world df total idxs st 0) as Hrows.
  pose proof (run_failure_count cfg world df total idxs st 0) as Hcount.
  pose proof (run_sent_count cfg world df total idxs st 0) as Hsent.
  cbv zeta in Hrows, Hcount, Hsent. fold p in Hrows, Hcount, Hsent.
  rewrite Hnone in Hcount. cbn [length] in Hcount.
  destruct (failure_records df (trace p)) as [|]; [|cbn [length] in Hcount; lia].
  destruct (sent_rows (trace p)) as [|]; [|cbn [length] in Hcount; lia].
  split; [done|]. split; [cbn [length] in Hsent; lia|by rewrite Hrows, app_nil_r].
Qed.

End PassTheorems.

(** ** More about the sanitizer and the names *)

Section CleanFacts.

Local Open Scope N_scope.

Lemma contains_char_spec c s : contains_char c s = true <-> c ∈ s.
Proof.
  unfold contains_char. rewrite existsb_exists, list_elem_of_In. split.
  - intros (x & Hin & ->%N.eqb_eq). done.
  - intros Hin. exists c. by rewrite N.eqb_refl.
Qed.

Lemma contains_char_false c s : contains_char c s = false -> c ∉ s.
Proof. intros Hf Hin%contains_char_spec. congruence. Qed.

Lemma replace_char_absent a new s : a ∉ s -> replace [a] new s = s.
Proof.
  rewrite replace_char. induction s as [|c s IH]; [done|].
  intros [Hc Hs]%not_elem_of_cons. rewrite bind_cons, IH by done.
  by rewrite (proj2 (N.eqb_neq a c)).
Qed.

Lemma lstrip_id s :
  (forall c, head s = Some c -> isspace c = false) -> lstrip s = s.
Proof.
  destruct s as [|c s]; [done|]. intros Hh. cbn [lstrip]. by rewrite (Hh c).
Qed.

Lemma last_rev {A} (x : list A) : last (rev x) = head x.
Proof. destruct x as [|c x]; [done|]. cbn [rev]. by rewrite last_snoc. Qed.

Lemma rstrip_id s :
  (forall c, last s = Some c -> isspace c = false) -> rstrip s = s.
Proof.
  intros Hl. unfold rstrip. rewrite lstrip_id, rev_involutive; [done|].
  intros c Hc. apply Hl. by rewrite <- (rev_involutive s), last_rev.
Qed.

Lemma strip_id s :
  (forall c, head s = Some c -> isspace c = false) ->
  (forall c, last s = Some c -> isspace c = false) ->
  strip s = s.
Proof. intros Hh Hl. unfold strip. by rewrite lstrip_id, rstrip_id. Qed.

Lemma strip_subseteq s x : x ∈ strip s -> x ∈ s.
Proof.
  destruct (strip_spec s) as (w & w' & Hs & _).
  intros Hx. rewrite Hs, !elem_of_app. auto.
Qed.

Lemma clean_value_parts val :
  (NBSP ∉ clean_value val) /\ (ZWSP ∉ clean_value val)
  /\ (forall c, head (clean_value val) = Some c -> isspace c = false)
  /\ (forall c, last (clean_value val) = Some c -> isspace c = false).
Proof.
  unfold clean_value.
  set (s := replace [ZWSP] [] (replace [NBSP] [SPACE] val)).
  assert (NBSP ∉ s) as Hn.
  { apply replace_char_fresh; [|apply not_elem_of_nil].
    apply replace_char_gone. by intros [=]%list_elem_of_singleton. }
  assert (ZWSP ∉ s) as Hz by apply replace_char_gone, not_elem_of_nil.
  split; [by intros ?%strip_subseteq|]. split; [by intros ?%strip_subseteq|].
  apply strip_ends.
Qed.

(** Cleaning a cleaned cell changes nothing. *)
Theorem clean_value_idempotent val : clean_value (clean_value val) = clean_value val.
Proof.
  destruct (clean_value_parts val) as (Hn & Hz & Hh & Hl).
  unfold clean_value at 1.
  rewrite (replace_char_absent NBSP) by done.
  rewrite (replace_char_absent ZWSP) by done.
  by apply strip_id.
Qed.

Lemma token_no_lead s :
  (forall c, head s = Some c -> isspace c = false) -> first_token s = token s.
Proof. intros Hh. unfold first_token. by rewrite lstrip_id. Qed.

Lemma get_first_name_clean val :
  get_first_name (clean_value val) = Ok (token (clean_value val)).
Proof.
  destruct (clean_value_parts val) as (_ & _ & Hh & _).
  rewrite get_first_name_cases, (token_no_lead _ Hh).
  destruct (clean_value val) as [|c s]; [done|].
  cbn [forallb]. by rewrite (Hh c).
Qed.

(** On a cleaned cell [get_first_name] never raises: it returns the
    characters up to the first whitespace. *)
Theorem get_first_name_of_cleaned_cell val :
  get_first_name (clean_value val) = Ok (token (clean_value val))
  /\ (forall c, c ∈ token (clean_value val) -> isspace c = false).
Proof.
  split; [apply get_first_name_clean|].
  generalize (clean_value val). intros s. induction s as [|x s IH]; cbn [token].
  - by intros c ?%elem_of_nil.
  - destruct (isspace x) eqn:Hx; [by intros c ?%elem_of_nil|].
    intros c [->|Hc]%elem_of_cons; [done|by apply IH].
Qed.

End CleanFacts.

(** ** The uploaded table *)

Section UploadFacts.

Context `{PyLib}.

Lemma applymap_row (f : pystr -> pystr) (raw : list row) (r : row) :
  r ∈ applymap f raw ->
  forall (k v : pystr), r !! k = Some v -> exists v0, v = f v0.
Proof.
  unfold applymap. intros (r0 & -> & _)%list_elem_of_fmap k v.
  rewrite lookup_fmap. destruct (r0 !! k) as [v0|]; [|done].
  intros [= <-]. by exists v0.
Qed.

(** Over a table whose cells went through [clean_value] on upload (line
    82), reading the first name never raises: an exception that leaves a
    pass is a rendering error of the subject or body template on a row of
    the table, or a [UnicodeEncodeError] of the constructors of lines
    157-161. *)
Theorem uploaded_table_only_template_errors cfg world raw resume st e :
  resume = false \/ -1 <= last_sent_index st ->
  how (send_bulk cfg world (applymap clean_value raw) resume st) = Uncaught e ->
  (exists r, r ∈ applymap clean_value raw /\ render_fails cfg r e)
  \/ exists codec, e = UnicodeEncodeError codec.
Proof.
  intros Hstart Hhow.
  apply send_bulk_uncaught_inv in Hhow as (idx & r & recip & Hr & _ & _ & Hm); [|done].
  apply list_elem_of_lookup_2 in Hr.
  apply compose_raise_inv in Hm as [Hfail|[Hname|Henc]]; [left; by exists r| |by right].
  exfalso. destruct (r !! py "name") as [v|] eqn:Hv.
  - change (default [] (Some v)) with v in Hname.
    destruct (applymap_row _ _ _ Hr _ _ Hv) as (v0 & ->).
    by rewrite get_first_name_clean in Hname.
  - discriminate.
Qed.

End UploadFacts.

(** ** More about the message formatter *)

Section FormatterFacts.

Local Open Scope N_scope.

Lemma escape_char_no_delimiter c x :
  x = LT \/ x = GT \/ x = DQUOTE \/ x = SQUOTE -> x ∉ escape_char c.
Proof.
  intros Hx. unfold escape_char.
  destruct (N.eqb_spec c AMP); [|destruct (N.eqb_spec c LT); [|destruct (N.eqb_spec c GT);
    [|destruct (N.eqb_spec c DQUOTE); [|destruct (N.eqb_spec c SQUOTE)]]]];
    rewrite list_elem_of_In; simpl;
    destruct Hx as [ -> | [ -> | [ -> | -> ] ] ]; intuition discriminate.
Qed.

(** Escaped text holds none of the characters that delimit markup or an
    attribute value. *)
Theorem html_escape_no_delimiters s :
  (LT ∉ html_escape s) /\ (GT ∉ html_escape s)
  /\ (DQUOTE ∉ html_escape s) /\ (SQUOTE ∉ html_escape s).
Proof.
  assert (forall x, x = LT \/ x = GT \/ x = DQUOTE \/ x = SQUOTE -> x ∉ html_escape s)
    as Hall.
  { intros x Hx. rewrite html_escape_chars, list_elem_of_bind.
    intros (c & Hc & _). by apply (escape_char_no_delimiter c x). }
  repeat split; apply Hall; auto.
Qed.

Lemma escape_char_newline c x : x = LF \/ x = CR -> x ∈ escape_char c -> x = c.
Proof.
  intros Hx. unfold escape_char.
  destruct (N.eqb_spec c AMP); [|destruct (N.eqb_spec c LT); [|destruct (N.eqb_spec c GT);
    [|destruct (N.eqb_spec c DQUOTE); [|destruct (N.eqb_spec c SQUOTE)]]]];
    rewrite list_elem_of_In; simpl;
    destruct Hx as [ -> | -> ]; intuition (try discriminate; congruence).
Qed.

Lemma html_escape_newline s x : x = LF \/ x = CR -> x ∈ html_escape s -> x ∈ s.
Proof.
  intros Hx. rewrite html_escape_chars, list_elem_of_bind.
  intros (c & Hc & Hin). by rewrite (escape_char_newline c x Hx Hc).
Qed.

Lemma paragraphs_elem x s :
  x ∈ paragraphs s -> (x ∈ s /\ x <> LF) \/ x ∈ P_CLOSE ++ P_OPEN ++ BR.
Proof.
  induction s as [|c|c y l IH1 IH2] using list_ind2.
  - by intros ?%elem_of_nil.
  - cbn [paragraphs]. destruct (N.eqb_spec c LF) as [->|Hc].
    + intros Hx. right. rewrite !elem_of_app. auto.
    + intros ->%list_elem_of_singleton. left. split; [by left|done].
  - rewrite paragraphs_cons2. destruct (N.eqb_spec c LF) as [->|Hc]; cbv iota.
    + destruct (N.eqb_spec y LF) as [->|Hy]; cbv iota.
      * intros Hx. rewrite !elem_of_app in Hx.
        destruct Hx as [?|[?|Hx]]; [right; rewrite !elem_of_app; auto..|].
        destruct (IH1 Hx) as [[? ?]|?]; [left; split; [by do 2 right|done]|by right].
      * intros Hx. rewrite elem_of_app in Hx.
        destruct Hx as [?|Hx]; [right; rewrite !elem_of_app; auto|].
        destruct (IH2 Hx) as [[? ?]|?]; [left; split; [by right|done]|by right].
    + intros [->|Hx]%elem_of_cons; [left; split; [by left|done]|].
      destruct (IH2 Hx) as [[? ?]|?]; [left; split; [by right|done]|by right].
Qed.

(** The markup is one line: it holds no line feed and no carriage return. *)
Theorem text_to_html_one_line text :
  (LF ∉ text_to_html text) /\ (CR ∉ text_to_html text).
Proof.
  assert (forall x, x = LF \/ x = CR -> x ∉ P_CLOSE ++ P_OPEN ++ BR) as Htags.
  { intros x [-> | ->]; by apply contains_char_false. }
  assert (forall x, x = LF \/ x = CR -> x ∉ P_OPEN) as Hopen.
  { intros x [-> | ->]; by apply contains_char_false. }
  assert (forall x, x = LF \/ x = CR -> x ∉ P_CLOSE) as Hclose.
  { intros x [-> | ->]; by apply contains_char_false. }
  rewrite text_to_html_scan. split; rewrite !elem_of_app.
  - intros [H|[Hx|H]]; [by apply (Hopen LF) in H; auto| |by apply (Hclose LF) in H; auto].
    apply paragraphs_elem in Hx as [[_ ?]|H]; [done|]. apply (Htags LF) in H; auto.
  - intros [H|[Hx|H]]; [by apply (Hopen CR) in H; auto| |by apply (Hclose CR) in H; auto].
    apply paragraphs_elem in Hx as [[Hx _]|H]; [|apply (Htags CR) in H; auto].
    apply html_escape_newline in Hx; [|auto].
    by apply normalize_newlines_no_cr in Hx.
Qed.

Lemma normalize_newlines_other c s :
  c <> CR -> normalize_newlines (c :: s) = c :: normalize_newlines s.
Proof. intros Hc. cbn [normalize_newlines]. by rewrite (proj2 (N.eqb_neq c CR)). Qed.

Lemma normalize_newlines_lone_cr s :
  head s <> Some LF -> normalize_newlines (CR :: s) = LF :: normalize_newlines s.
Proof.
  intros Hs. destruct s as [|c s]; [done|].
  rewrite normalize_newlines_cons2. change (CR =? CR) with true. cbv iota.
  destruct (N.eqb_spec c LF) as [->|]; [by destruct Hs|done].
Qed.

Lemma normalize_newlines_id s : CR ∉ s -> normalize_newlines s = s.
Proof.
  induction s as [|c s IH]; [done|]. intros [Hc Hs]%not_elem_of_cons.
  rewrite normalize_newlines_other by done. by rewrite IH.
Qed.

Lemma normalize_with_crlf t : CR ∉ t -> normalize_newlines (replace [LF] [CR; LF] t) = t.
Proof.
  rewrite replace_char.
  induction t as [|c t IH]; [done|]. intros [Hc Ht]%not_elem_of_cons.
  rewrite bind_cons. destruct (N.eqb_spec LF c) as [<-|Hlf].
  - cbn [app]. rewrite normalize_newlines_cons2.
    change (CR =? CR) with true. change (LF =? LF) with true. cbv iota.
    by rewrite IH.
  - cbn [app]. rewrite normalize_newlines_other by done. by rewrite IH.
Qed.

Lemma with_cr_no_lf t : LF ∉ replace [LF] [CR] t.
Proof.
  apply replace_char_gone. rewrite list_elem_of_singleton. discriminate.
Qed.

Lemma normalize_with_cr t : CR ∉ t -> normalize_newlines (replace [LF] [CR] t) = t.
Proof.
  induction t as [|c t IH]; [done|]. intros [Hc Ht]%not_elem_of_cons.
  pose proof (with_cr_no_lf t) as Hno. specialize (IH Ht).
  rewrite replace_char in *. rewrite bind_cons.
  destruct (N.eqb_spec LF c) as [<-|Hlf].
  - cbn [app]. rewrite normalize_newlines_lone_cr, IH; [done|].
    intros Hh. apply Hno. apply head_Some in Hh as (l' & ->). by left.
  - cbn [app]. rewrite normalize_newlines_other by done. by rewrite IH.
Qed.

(** A body written with CR LF or with CR line endings gives the markup of
    the same body written with LF line endings. *)
Theorem text_to_html_any_line_ending text :
  CR ∉ text ->
  text_to_html (replace [LF] [CR; LF] text) = text_to_html text
  /\ text_to_html (replace [LF] [CR] text) = text_to_html text.
Proof.
  intros Hcr. rewrite !text_to_html_scan.
  by rewrite normalize_with_crlf, normalize_with_cr, normalize_newlines_id.
Qed.

Lemma paragraphs_other c s : c <> LF -> paragraphs (c :: s) = c :: paragraphs s.
Proof. intros Hc. cbn [paragraphs]. by rewrite (proj2 (N.eqb_neq c LF)). Qed.

Lemma paragraphs_prefix k r : LF ∉ k -> paragraphs (k ++ r) = k ++ paragraphs r.
Proof.
  induction k as [|c k IH]; [done|]. intros [Hc Hk]%not_elem_of_cons.
  cbn [app]. rewrite paragraphs_other by done. by rewrite IH.
Qed.

Lemma escape_char_no_lf c : c <> LF -> LF ∉ escape_char c.
Proof. intros Hc Hin. apply escape_char_newline in Hin; auto. Qed.

Lemma escape_char_head c r : c <> LF -> head (escape_char c ++ r) <> Some LF.
Proof.
  intros Hc Hh. apply (escape_char_no_lf c Hc).
  destruct (escape_char c) as [|x l] eqn:E.
  - unfold escape_char in E.
    repeat (match type of E with context [if ?b then _ else _] => destruct b end);
      discriminate.
  - injection Hh as ->. by left.
Qed.

Lemma text_to_html_snoc a c :
  c <> LF -> c <> CR ->
  text_to_html (a ++ [c])
  = P_OPEN ++ paragraphs (html_escape (normalize_newlines a)) ++ escape_char c ++ P_CLOSE.
Proof.
  intros Hlf Hcr. rewrite text_to_html_scan.
  rewrite normalize_newlines_app by (cbn; congruence).
  rewrite (normalize_newlines_other c []) by done.
  change (normalize_newlines []) with (@nil N).
  rewrite html_escape_app, (html_escape_chars [c]), bind_singleton.
  rewrite paragraphs_app.
  - rewrite <- (app_nil_r (escape_char c)) at 1.
    rewrite paragraphs_prefix by by apply escape_char_no_lf.
    change (paragraphs []) with (@nil N).
    by rewrite app_nil_r, <- !app_assoc.
  - rewrite <- (app_nil_r (escape_char c)). by apply escape_char_head.
Qed.

(** A blank line between two texts splits the markup: when the first text
    does not end in a line ending, the markup of the whole is the markup of
    the first followed by the markup of the second. *)
Theorem text_to_html_blank_line a b :
  last a <> Some LF -> last a <> Some CR ->
  text_to_html (a ++ [LF; LF] ++ b) = text_to_html a ++ text_to_html b.
Proof.
  intros Hlf Hcr. destruct a as [|x a'] using rev_ind.
  - rewrite !text_to_html_scan. reflexivity.
  - clear IHa'. rewrite last_snoc in Hlf, Hcr.
    assert (x <> LF) as Hx1 by congruence. assert (x <> CR) as Hx2 by congruence.
    rewrite text_to_html_snoc by done. rewrite (text_to_html_scan b).
    rewrite text_to_html_scan, <- app_assoc.
    rewrite normalize_newlines_app by (cbn; congruence).
    change ([x] ++ [LF; LF] ++ b) with (x :: LF :: LF :: b).
    rewrite normalize_newlines_other by done.
    rewrite (normalize_newlines_other LF) by done.
    rewrite (normalize_newlines_other LF) by done.
    rewrite html_escape_app.
    change (x :: LF :: LF :: normalize_newlines b)
      with ([x] ++ [LF; LF] ++ normalize_newlines b).
    rewrite !html_escape_app, (html_escape_chars [x]), bind_singleton.
    change (html_escape [LF; LF]) with [LF; LF].
    rewrite paragraphs_app by by apply escape_char_head.
    rewrite paragraphs_prefix by by apply escape_char_no_lf.
    change (paragraphs ([LF; LF] ++ html_escape (normalize_newlines b)))
      with (P_CLOSE ++ P_OPEN ++ paragraphs (html_escape (normalize_newlines b))).
    by rewrite <- !app_assoc.
Qed.

End FormatterFacts.

(** ** Positional placeholders *)

Section PositionalFacts.

Context `{PyLib}.

Local Open Scope N_scope.

Lemma get_integer_decimal k acc :
  forallb isdecimal k = true ->
  (exists n, get_integer acc k = Some (Ok n))
  \/ exists msg, get_integer acc k = Some (Raise (ValueError msg)).
Proof.
  revert acc. induction k as [|c k IH]; intros acc Hk; cbn [get_integer].
  - left. by eexists.
  - cbn [forallb] in Hk. apply andb_prop in Hk as [Hc Hk]. unfold isdecimal in Hc.
    destruct (todecimal c) as [d|]; [|discriminate].
    destruct (_ <? _)%Z; [right; by eexists|by apply IH].
Qed.

Lemma lookup_field_positional m k :
  forallb isdecimal k = true -> exists msg, lookup_field m k = Raise (ValueError msg).
Proof.
  intros Hk. unfold lookup_field. destruct k as [|c k]; [by eexists|].
  destruct (get_integer_decimal (c :: k) 0 Hk) as [[n ->]|[msg ->]]; by eexists.
Qed.

(** A placeholder whose name is empty or a number is positional:
    [format_map] refuses it with a [ValueError], whatever the mapping holds
    and whatever follows in the template. *)
Theorem positional_field_is_refused ps k rest m :
  Forall piece_ok ps ->
  forallb plain_char k = true ->
  forallb isdecimal k = true ->
  exists msg,
    safe_format (template_of ps ++ LBRACE :: k ++ RBRACE :: rest) m
    = Raise (ValueError msg).
Proof.
  intros Hps Hk Hd. destruct (lookup_field_positional m k Hd) as [msg Hmsg].
  exists msg. unfold safe_format.
  rewrite safe_format_pieces by done.
  assert (format_text m (LBRACE :: k ++ RBRACE :: rest)
          = format_field m [] (k ++ RBRACE :: rest)) as ->.
  { destruct k as [|c k]; [reflexivity|].
    cbn [forallb] in Hk. apply andb_prop in Hk as [Hc _].
    unfold plain_char, is_brace in Hc. apply andb_prop in Hc as [Hb _].
    apply negb_true_iff, orb_false_elim in Hb as [Hl _].
    change (format_text m (LBRACE :: (c :: k) ++ RBRACE :: rest))
      with (if c =? LBRACE
            then r ← format_text m (k ++ RBRACE :: rest); Ok (LBRACE :: r)
            else format_field m [] ((c :: k) ++ RBRACE :: rest)).
    by rewrite Hl. }
  rewrite format_field_plain by done. cbn [app]. rewrite Hmsg. reflexivity.
Qed.

End PositionalFacts.

(** ** The progress bar *)

Section ProgressFacts.

Context `{PyLib}.

Lemma pacing_progress idx total b st tr st' b' tr' num den :
  pacing idx total b st tr = Next st' b' tr' ->
  Progress num den ∈ tr' -> Progress num den ∈ tr \/ (num = idx + 1 /\ den = total).
Proof.
  unfold pacing. destruct (EMAILS_PER_BATCH <=? b); intros Heq%Next_inj;
    destruct Heq as (_ & _ & <-); rewrite ?elem_of_app, ?elem_of_cons, ?elem_of_nil;
    intros Hin; intuition (try discriminate; try congruence).
Qed.

Lemma iteration_progress cfg world df total idx st b st' b' tr num den :
  iteration cfg world df total idx st b = Next st' b' tr ->
  Progress num den ∈ tr -> num = idx + 1 /\ den = total.
Proof.
  unfold iteration. destruct (stop_sending st); [discriminate|].
  destruct (iloc df idx) as [r|]; [|discriminate].
  destruct (clean_email_address (r !! py "email")) as [recip|] eqn:Hc.
  2:{ intros Heq%Next_inj. destruct Heq as (_ & _ & <-). by intros ?%elem_of_nil. }
  rewrite (clean_email_address_truthy _ _ Hc). cbn [negb].
  destruct (compose cfg r recip) as [msg|]; [|discriminate].
  destruct (smtp world idx msg); intros Hp Hin;
    destruct (pacing_progress _ _ _ _ _ _ _ _ _ _ Hp Hin) as [Htr|?]; try done;
    rewrite ?elem_of_cons, ?elem_of_nil in Htr; intuition discriminate.
Qed.

Lemma run_progress cfg world df total idxs st b num den :
  Progress num den ∈ trace (run cfg world df total idxs st b) ->
  den = total /\ num - 1 ∈ idxs.
Proof.
  revert st b. induction idxs as [|idx rest IH]; intros st b; cbn [run].
  - by intros ?%elem_of_nil.
  - destruct (iteration _ _ _ _ _ _ _) as [tr|st' b' tr|e] eqn:Hit; cbn [trace after].
    + apply iteration_break_trace in Hit as ->.
      rewrite elem_of_cons, elem_of_nil. intuition discriminate.
    + rewrite elem_of_app. intros [Hin|Hin].
      * destruct (iteration_progress _ _ _ _ _ _ _ _ _ _ _ _ Hit Hin) as [-> ->].
        split; [done|]. replace (idx + 1 - 1) with idx by lia. by left.
      * destruct (IH _ _ Hin) as [-> ?]. split; [done|by right].
    + by intros ?%elem_of_nil.
Qed.

(** The value the progress bar is set to is a fraction of the table in
    (0, 1]: its numerator is the position after a row of the pass and its
    denominator is the length of the table. *)
Theorem progress_stays_in_bounds cfg world df resume st num den :
  resume = false \/ -1 <= last_sent_index st ->
  Progress num den ∈ trace (send_bulk cfg world df resume st) ->
  den = Z.of_nat (length df) /\ 0 < num <= den.
Proof.
  intros Hstart [-> Hin]%run_progress. split; [done|].
  apply elem_of_seqZ in Hin. unfold start_index in Hin.
  destruct Hstart as [->|?]; [lia|]. destruct resume; lia.
Qed.

End ProgressFacts.

(** ** Further concrete runs *)

Lemma positional_field_is_refused_witness :
  exists msg,
    safe_format (H := sample_lib)
      (template_of [Lit (py "Hi ")] ++ LBRACE :: py "0" ++ RBRACE :: py "!")
      (mk_row "a@x.com" "Al")
    = Raise (ValueError msg).
Proof.
  apply (@positional_field_is_refused sample_lib); [repeat constructor|reflexivity..].
Defined.

Lemma text_to_html_any_line_ending_witness :
  text_to_html (replace [LF] [CR; LF] (py "a" ++ [LF] ++ py "b"))
  = text_to_html (py "a" ++ [LF] ++ py "b")
  /\ text_to_html (replace [LF] [CR] (py "a" ++ [LF] ++ py "b"))
     = text_to_html (py "a" ++ [LF] ++ py "b").
Proof.
  apply text_to_html_any_line_ending. apply contains_char_false. reflexivity.
Defined.

Lemma text_to_html_blank_line_witness :
  text_to_html (py "Hello" ++ [LF; LF] ++ py "World")
  = text_to_html (py "Hello") ++ text_to_html (py "World").
Proof. apply text_to_html_blank_line; discriminate. Defined.

Lemma stop_halts_before_later_rows_witness :
  let p := send_bulk (H := sample_lib) (cfg_hi "Hi {name}" "Hello {name}")
             (stop_at 1) table_abc false defaults in
  stop_pressed (stop_at 1) 1 = true
  /\ attempted_rows (trace p) = [0]
  /\ 0 < 1.
Proof.
  split; [reflexivity|split; [reflexivity|]].
  apply (@stop_halts_before_later_rows sample_lib (cfg_hi "Hi {name}" "Hello {name}")
           (stop_at 1) table_abc false defaults 1 0).
  - reflexivity.
  - vm_compute. discriminate.
  - apply list_elem_of_In. vm_compute. auto.
Defined.

Lemma stopped_only_by_a_press_witness :
  exists idx,
    start_index (resume_mode (handlers press_send defaults)) (handlers press_send defaults)
      <= idx < Z.of_nat (length table_abc)
    /\ stop_pressed (stop_at 1) idx = true.
Proof.
  apply (@stopped_only_by_a_press sample_lib (cfg_hi "Hi {name}" "Hello {name}")
           (stop_at 1) press_send table_abc defaults); reflexivity.
Defined.

Lemma retry_accumulates_witness :
  let p := script (H := sample_lib) (cfg_hi "Hi {name}" "Hello {name}")
             (failing_at 0 "rejected again") press_retry None after_send in
  failed_rows (final p)
  = failed_rows after_send ++ failure_records (failed_rows after_send) (trace p)
  /\ sent_count (final p)
     = sent_count after_send + Z.of_nat (length (sent_rows (trace p))).
Proof.
  apply (@retry_accumulates sample_lib). vm_compute. discriminate.
Defined.

Lemma every_call_has_an_address_witness :
  let cfg := cfg_hi "Hi {name}" "Hello {name}" in
  exists r,
    iloc table3 2 = Ok r
    /\ clean_email_address (H := sample_lib) (r !! py "email")
       = Some (msg_to (letter cfg "c@x.com" "Hi Ga Ma" "Hello Ga"))
    /\ contains_char AT (msg_to (letter cfg "c@x.com" "Hi Ga Ma" "Hello Ga")) = true
    /\ msg_from (letter cfg "c@x.com" "Hi Ga Ma" "Hello Ga") = (from_name cfg, from_email cfg)
    /\ smtp always_ok 2 (letter cfg "c@x.com" "Hi Ga Ma" "Hello Ga") = None.
Proof.
  apply (@every_call_has_an_address sample_lib (cfg_hi "Hi {name}" "Hello {name}")
           always_ok table3 false defaults).
  apply list_elem_of_In. vm_compute. auto.
Defined.

Lemma only_composing_raises_witness :
  let cfg := cfg_hi "Hi {name" "Hello {name}" in
  exists idx r recip,
    table3 !! Z.to_nat idx = Some r /\ 0 <= idx < Z.of_nat (length table3)
    /\ clean_email_address (H := sample_lib) (r !! py "email") = Some recip
    /\ compose (H := sample_lib) cfg r recip
       = Raise (ValueError "expected '}' before end of string").
Proof.
  apply (@only_composing_raises sample_lib (cfg_hi "Hi {name" "Hello {name}")
           always_ok table3 false defaults); [by left|reflexivity].
Defined.

Lemma uploaded_table_only_template_errors_witness :
  let cfg := cfg_hi "Hi {name}" "Hello {name" in
  let raw := [mk_row " a@x.com " "   "] in
  (exists r,
     r ∈ applymap clean_value raw
     /\ render_fails (H := sample_lib) cfg r
          (ValueError "expected '}' before end of string"))
  \/ exists codec, ValueError "expected '}' before end of string" = UnicodeEncodeError codec.
Proof.
  apply (@uploaded_table_only_template_errors sample_lib (cfg_hi "Hi {name}" "Hello {name")
           always_ok [mk_row " a@x.com " "   "] false defaults); [by left|reflexivity].
Defined.

Lemma progress_stays_in_bounds_witness :
  let p := send_bulk (H := sample_lib) (cfg_hi "Hi {name}" "Hello {name}")
             always_ok table3 false defaults in
  Progress 1 3 ∈ trace p /\ 3 = Z.of_nat (length table3) /\ 0 < 1 <= 3.
Proof.
  assert (Progress 1 3 ∈ trace (send_bulk (H := sample_lib)
            (cfg_hi "Hi {name}" "Hello {name}") always_ok table3 false defaults)) as Hin.
  { apply list_elem_of_In. vm_compute. auto. }
  split; [exact Hin|].
  apply (@progress_stays_in_bounds sample_lib (cfg_hi "Hi {name}" "Hello {name}")
           always_ok table3 false defaults 1 3); [by left|exact Hin].
Defined.

Lemma bad_sender_sends_nothing_witness :
  let cfg := {| from_email := py "m" ++ [233%N] ++ py "@gmail.com";
                app_password := py "secret"; from_name := py "Team";
                subject_tpl := py "Hi {name}"; body_tpl := py "Hello {name}" |} in
  let p := send_bulk (H := sample_lib) cfg always_ok table3 false defaults in
  how p = Uncaught (UnicodeEncodeError "ascii")
  /\ attempts (trace p) = []
  /\ sent_count (final p) = sent_count defaults
  /\ failed_rows (final p) = failed_rows defaults.
Proof.
  split; [reflexivity|].
  apply (@bad_sender_sends_nothing sample_lib
           {| from_email := py "m" ++ [233%N] ++ py "@gmail.com";
              app_password := py "secret"; from_name := py "Team";
              subject_tpl := py "Hi {name}"; body_tpl := py "Hello {name}" |}
           always_ok table3 false defaults).
  reflexivity.
Defined.
